(** * script_update.py: a guarded literal find-and-replace on one file

    The script reads one YAML file as text, checks that a literal block
    [old] occurs in it, and writes the text back with [old] replaced by
    [new]; when the block is missing it stops with
    [SystemExit('pattern not found')] before writing.

    Python values are embedded as follows.
    - A [str] is the list of its Unicode code points; [bytes] is the list
      of byte values.
    - A file system has directory entries, from a path to the file it
      names, and files, which hold bytes; several paths can name one file.
    - [Path.read_text(encoding='utf-8')] decodes the bytes as UTF-8 and
      reads every line ending (CR LF, CR or LF) as LF;
      [Path.write_text(data, encoding='utf-8')] empties the file, writes
      every LF as the line separator of the platform and encodes the
      result as UTF-8.
    - Statements run in a small exception-and-state monad [Py] over a
      [world] that keeps the platform, the file system and the log of file
      operations.
    - [python] is the interpreter's top level: it turns the outcome of the
      script into an exit status and what is printed on stderr.

    Failures that come from the operating system while a file is open
    (permissions, a full disk) are not part of the model. *)

From Stdlib Require Import NArith ZArith String Ascii List Lia.
From Equations Require Import Equations.
From stdpp Require Import gmap strings list.

(** ** Strings *)

Definition codepoint := N.
Abbreviation str := (list codepoint).

(** An ASCII literal of the source, as code points. *)
Definition py (s : string) : str := map N_of_ascii (list_ascii_of_string s).

(** The escape [\n] and the double quote character. *)
Definition LF : str := [10%N].
Definition DQ : str := [34%N].

(** [text.startswith(prefix)]: the comparison done at one position of a
    substring search. *)
Fixpoint startswith (prefix text : str) : bool :=
  match prefix, text with
  | [], _ => true
  | _ :: _, [] => false
  | p :: prefix', c :: text' => (p =? c)%N && startswith prefix' text'
  end.

(** [sub in text]: some position of [text] starts with [sub].  The empty
    string is found in every text, the empty text included. *)
Fixpoint contains (sub text : str) : bool :=
  startswith sub text ||
  match text with
  | [] => false
  | _ :: text' => contains sub text'
  end.

(** [text.replace(old, new)] for a non-empty [old = o :: old']: scan from the
    left; where [old] matches, emit [new] and resume after the match, so
    matches do not overlap; elsewhere copy one code point. *)
Equations? replace_nonempty (o : codepoint) (old' new text : str) : str
  by wf (length text) lt :=
  replace_nonempty o old' new [] := [];
  replace_nonempty o old' new (c :: t) with startswith (o :: old') (c :: t) => {
    | true := new ++ replace_nonempty o old' new (drop (length old') t);
    | false := c :: replace_nonempty o old' new t }.
Proof. all: simpl; try rewrite length_drop; lia. Qed.

(** [text.replace('', new)] continues after the leading [new]: every code
    point is followed by a copy of [new]. *)
Fixpoint interleave (new text : str) : str :=
  match text with
  | [] => []
  | c :: text' => c :: new ++ interleave new text'
  end.

(** [text.replace(old, new)] with the default count: all matches. *)
Definition replace (old new text : str) : str :=
  match old with
  | [] => new ++ interleave new text
  | o :: old' => replace_nonempty o old' new text
  end.

(** ** Overlap of two strings

    [agree a b]: one of [a], [b] is a prefix of the other, that is, they are
    equal wherever both are defined when laid out from the same position. *)
Definition agree (a b : str) : bool := startswith a b || startswith b a.

(** The non-empty suffixes of a string, longest first. *)
Fixpoint suffixes (s : str) : list str :=
  match s with
  | [] => []
  | _ :: s' => s :: suffixes s'
  end.

(** [overlap_free old new]: no placement of [old] over [new] in which they
    share a position is consistent.  It rules out that one contains the
    other and that a non-empty end of one is a start of the other. *)
Definition overlap_free (old new : str) : bool :=
  forallb (fun q => negb (agree q new)) (suffixes old) &&
  forallb (fun n => negb (agree old n)) (suffixes new).

(** No code point in common. *)
Definition disjoint_chars (a b : str) : Prop := ∀ c, In c a → ¬ In c b.

(** ** Text files: line endings and UTF-8 *)

Abbreviation bytes := (list N).

Definition CR : str := [13%N].
Definition CRLF : str := [13%N; 10%N].

(** Reading in text mode with [newline=None]: the decoded text has its
    [\r\n] and then its remaining [\r] replaced by [\n]. *)
Definition universal_newlines (raw : str) : str :=
  replace CR LF (replace CRLF LF raw).

Inductive platform :=
| Posix
| Windows.

(** [os.linesep] *)
Definition linesep (os : platform) : str :=
  match os with
  | Posix => LF
  | Windows => CRLF
  end.

(** Writing in text mode with [newline=None]: every [\n] of the text is
    replaced by [os.linesep]. *)
Definition write_newlines (os : platform) (data : str) : str :=
  replace LF (linesep os) data.

(** The code points UTF-8 can encode: up to U+10FFFF, surrogates
    excluded. *)
Definition scalar (c : codepoint) : bool :=
  (c <? 0xD800)%N || ((0xDFFF <? c)%N && (c <? 0x110000)%N).

Definition encodable (s : str) : bool := forallb scalar s.

(** The UTF-8 form of one code point, of one to four bytes. *)
Definition utf8_char (c : codepoint) : bytes :=
  if (c <? 0x80)%N then [c]
  else if (c <? 0x800)%N then [0xC0 + c / 64; 0x80 + c mod 64]%N
  else if (c <? 0x10000)%N then
    [0xE0 + c / 4096; 0x80 + (c / 64) mod 64; 0x80 + c mod 64]%N
  else
    [0xF0 + c / 262144; 0x80 + (c / 4096) mod 64; 0x80 + (c / 64) mod 64;
     0x80 + c mod 64]%N.

Definition utf8 (s : str) : bytes := flat_map utf8_char s.

Definition continuation (b : N) : bool := (0x80 <=? b)%N && (b <? 0xC0)%N.

(** Strict UTF-8 decoding: the lead byte gives the length, the following
    bytes must be continuation bytes, and the code point must need that
    length and be encodable (no overlong form, no surrogate, nothing above
    U+10FFFF).  [None] stands for [UnicodeDecodeError]. *)
Fixpoint utf8_decode (b : bytes) : option str :=
  match b with
  | [] => Some []
  | b0 :: t0 =>
    if (b0 <? 0x80)%N then cons b0 <$> utf8_decode t0
    else if (b0 <? 0xC0)%N then None
    else if (b0 <? 0xE0)%N then
      match t0 with
      | b1 :: t1 =>
        let c := ((b0 - 0xC0) * 64 + (b1 - 0x80))%N in
        if continuation b1 && (0x80 <=? c)%N
        then cons c <$> utf8_decode t1 else None
      | _ => None
      end
    else if (b0 <? 0xF0)%N then
      match t0 with
      | b1 :: b2 :: t2 =>
        let c := (((b0 - 0xE0) * 64 + (b1 - 0x80)) * 64 + (b2 - 0x80))%N in
        if continuation b1 && continuation b2 && (0x800 <=? c)%N && scalar c
        then cons c <$> utf8_decode t2 else None
      | _ => None
      end
    else if (b0 <? 0xF8)%N then
      match t0 with
      | b1 :: b2 :: b3 :: t3 =>
        let c := ((((b0 - 0xF0) * 64 + (b1 - 0x80)) * 64 + (b2 - 0x80)) * 64
                  + (b3 - 0x80))%N in
        if continuation b1 && continuation b2 && continuation b3 &&
           (0x10000 <=? c)%N && (c <? 0x110000)%N
        then cons c <$> utf8_decode t3 else None
      | _ => None
      end
    else None
  end.

(** ** Files and effects *)

Inductive exn :=
| SystemExit (arg : string)
| FileNotFoundError (filename : string)
| UnicodeDecodeError
| UnicodeEncodeError.

Inductive event :=
| ReadText (p : string)
| WriteText (p : string) (data : str).

(** [names] are the directory entries: the file, by number, that a path
    names; [disk] holds the bytes of each file. *)
Record world := World {
  os : platform;
  names : gmap string nat;
  disk : gmap nat bytes;
  events : list event
}.

Inductive outcome (A : Type) :=
| Returns (a : A)
| Raises (e : exn).
Arguments Returns {A} a.
Arguments Raises {A} e.

Definition Py (A : Type) : Type := world → outcome A * world.

#[global] Instance Py_ret : MRet Py := λ A a w, (Returns a, w).

#[global] Instance Py_bind : MBind Py := λ A B k m w,
  match m w with
  | (Returns a, w') => k a w'
  | (Raises e, w') => (Raises e, w')
  end.

Definition raise {A} (e : exn) : Py A := λ w, (Raises e, w).

(** The bytes of the file that [p] names, if there is one. *)
Definition content (w : world) (p : string) : option bytes :=
  i ← names w !! p; disk w !! i.

(** [Path(p).read_text(encoding='utf-8')]: a path that names no file raises
    [FileNotFoundError]; bytes that are not UTF-8 raise
    [UnicodeDecodeError]; otherwise the decoded text is returned with its
    line endings read as [\n]. *)
Definition read_text (p : string) : Py str := λ w,
  match content w p with
  | None => (Raises (FileNotFoundError p), w)
  | Some b =>
    let w' := World (os w) (names w) (disk w) (events w ++ [ReadText p]) in
    match utf8_decode b with
    | None => (Raises UnicodeDecodeError, w')
    | Some raw => (Returns (universal_newlines raw), w')
    end
  end.

(** [Path(p).write_text(data, encoding='utf-8')]: opening for writing
    empties the file that [p] names, or makes a new file when [p] names
    none; the text, with [\n] written as [os.linesep], is encoded and
    stored, and the number of characters of [data] is returned.  A text that
    cannot be encoded raises [UnicodeEncodeError] and leaves the file
    empty. *)
Definition write_text (p : string) (data : str) : Py nat := λ w,
  let (i, names') :=
    match names w !! p with
    | Some i => (i, names w)
    | None => (fresh (dom (disk w)), <[p := fresh (dom (disk w))]> (names w))
    end in
  let log := events w ++ [WriteText p data] in
  let out := write_newlines (os w) data in
  if encodable out
  then (Returns (length data), World (os w) names' (<[i := utf8 out]> (disk w)) log)
  else (Raises UnicodeEncodeError, World (os w) names' (<[i := []]> (disk w)) log).

(** ** The script *)

(** The three statements of the script after its literals, with the path and
    the two literals as parameters. *)
Definition applyPatch (path : string) (old new : str) : Py nat :=
  text ← read_text path;
  if negb (contains old text)
  then raise (SystemExit "pattern not found")
  else write_text path (replace old new text).

Definition path : string :=
  "D:/Users/0dot1/Documents/Github/dot/shunya/index/ehh_template-v1.1.8-active-KW-wonderAgent.yaml".

Definition old : str :=
  py "    1.3_scope_management:" ++ LF ++
  py "      file: " ++ DQ ++ py "EHh-MANIFEST-SCOPE.md" ++ DQ ++ LF ++
  py "      description: " ++ DQ ++ py "Defines feature boundaries, future enhancements, and scope change process." ++ DQ ++ LF ++
  py "      sections:" ++ LF ++
  py "        - " ++ DQ ++ py "- " ++ DQ ++ py "1.3.1 In-Scope Features: describe in-Scope Features for EHh." ++ DQ ++ DQ ++ LF ++
  py "        - " ++ DQ ++ py "- " ++ DQ ++ py "1.3.2 Out-of-Scope Features: describe out-of-Scope Features for EHh." ++ DQ ++ DQ ++ LF ++
  py "        - " ++ DQ ++ py "- " ++ DQ ++ py "1.3.3 Future Considerations: describe future Considerations for EHh." ++ DQ ++ DQ ++ LF ++
  py "        - " ++ DQ ++ py "- " ++ DQ ++ py "1.3.4 Scope Change Process: describe scope Change Process for EHh." ++ DQ ++ DQ ++ LF ++
  py "        - " ++ DQ ++ py "- " ++ DQ ++ py "1.3.5 Prioritization Matrix: describe prioritization Matrix for EHh." ++ DQ ++ DQ ++ LF.

Definition new : str :=
  py "    1.3_scope_management:" ++ LF ++
  py "      file: " ++ DQ ++ py "EHh-MANIFEST-SCOPE.md" ++ DQ ++ LF ++
  py "      description: " ++ DQ ++ py "Defines feature boundaries, future enhancements, and scope change process." ++ DQ ++ LF ++
  py "      sections:" ++ LF ++
  py "        - title: " ++ DQ ++ py "1.3.1 In-Scope Features: describe in-scope features for EHh." ++ DQ ++ LF ++
  py "          breakdown:" ++ LF ++
  py "            - " ++ DQ ++ py "1.3.1.1 Platform orchestration: ActionApp choreography, ActionEngine sequencing, ActionLoader datasets." ++ DQ ++ LF ++
  py "            - " ++ DQ ++ py "1.3.1.2 Entity & storage features: ActionEntity management, ActionFs, LocalStorage, ActionIndexDb." ++ DQ ++ LF ++
  py "            - " ++ DQ ++ py "1.3.1.3 Navigation/UI: ActionView semantic nav, pointer/hover cues, accessibility helpers." ++ DQ ++ LF ++
  py "            - " ++ DQ ++ py "1.3.1.4 Utility + plugin surface: ActionValidator, ActionEvent, DocumentRenderer, httpService, Watchman." ++ DQ ++ LF ++
  py "        - " ++ DQ ++ py "- " ++ DQ ++ py "1.3.2 Out-of-Scope Features: describe out-of-Scope Features for EHh." ++ DQ ++ DQ ++ LF ++
  py "        - " ++ DQ ++ py "- " ++ DQ ++ py "1.3.3 Future Considerations: describe future Considerations for EHh." ++ DQ ++ DQ ++ LF ++
  py "        - " ++ DQ ++ py "- " ++ DQ ++ py "1.3.4 Scope Change Process: describe scope Change Process for EHh." ++ DQ ++ DQ ++ LF ++
  py "        - " ++ DQ ++ py "- " ++ DQ ++ py "1.3.5 Prioritization Matrix: describe prioritization Matrix for EHh." ++ DQ ++ DQ ++ LF.

Definition script_update : Py nat := applyPatch path old new.

(** ** The interpreter's top level *)

Inductive diagnostic :=
| Silent
| Message (text : string)
| Traceback (e : exn).

Record process := Process {
  exit_status : Z;
  stderr : diagnostic;
  final : world
}.

(** An uncaught [SystemExit] whose argument is a string prints the string on
    stderr and exits with status 1; any other uncaught exception prints a
    traceback and exits with status 1; a script that runs to its end exits
    with status 0. *)
Definition python {A} (script : Py A) (w : world) : process :=
  match script w with
  | (Returns _, w') => Process 0 Silent w'
  | (Raises (SystemExit arg), w') => Process 1 (Message arg) w'
  | (Raises e, w') => Process 1 (Traceback e) w'
  end.

(** Writes recorded in a log. *)
Definition is_write (e : event) : bool :=
  match e with
  | WriteText _ _ => true
  | ReadText _ => false
  end.

Definition writes (log : list event) : list event := List.filter is_write log.

(** ** Views of a file *)

(** What [read_text] returns for given bytes. *)
Definition decode_text (b : bytes) : option str :=
  universal_newlines <$> utf8_decode b.

(** The text of the file that [p] names, as [read_text] returns it. *)
Definition file_text (w : world) (p : string) : option str :=
  b ← content w p; decode_text b.

(** The bytes [write_text] stores for a text. *)
Definition stored (os : platform) (data : str) : bytes :=
  utf8 (write_newlines os data).

(** A file system with one file, named by [p], on which nothing has been
    done yet. *)
Definition one_file (os : platform) (p : string) (b : bytes) : world :=
  World os {[ p := 0 ]} {[ 0 := b ]} [].

(** ** What the specification calls an occurrence *)

(** [sub] occurs in [text], at the position after [l]. *)
Definition occurs_at (sub l text : str) : Prop := ∃ r, text = l ++ sub ++ r.

Definition occurs (sub text : str) : Prop := ∃ l, occurs_at sub l text.

(** The occurrence after [l] is the leftmost one. *)
Definition first_at (sub l text : str) : Prop :=
  occurs_at sub l text ∧ ∀ l', occurs_at sub l' text → length l ≤ length l'.

(** The occurrence after [l] is the only one. *)
Definition only_at (sub l text : str) : Prop :=
  occurs_at sub l text ∧ ∀ l', occurs_at sub l' text → l' = l.

(** The specification's substitution, read from its words: the content with
    every occurrence of [old] replaced by [new], taking occurrences from the
    left; a text without occurrence is kept as it is. *)
Inductive replaced_all (old new : str) : str → str → Prop :=
| replaced_none text :
    ¬ occurs old text → replaced_all old new text text
| replaced_next l r r' :
    first_at old l (l ++ old ++ r) →
    replaced_all old new r r' →
    replaced_all old new (l ++ old ++ r) (l ++ new ++ r').

(** The replacement placed at every boundary of [text]: before each code
    point and at the end. *)
Definition at_every_boundary (new text : str) : str :=
  concat (map (λ c, new ++ [c]) text) ++ new.

(** * Properties of the string operations *)

Section startswith_contains.
Implicit Types sub old new text l r : str.

Lemma startswith_app sub r : startswith sub (sub ++ r) = true.
Proof.
  induction sub as [|p sub IH]; simpl; [done|].
  by rewrite N.eqb_refl.
Qed.

Lemma startswith_inv sub text :
  startswith sub text = true → text = sub ++ drop (length sub) text.
Proof.
  revert text. induction sub as [|p sub IH]; intros [|c text]; simpl; try done.
  intros [Hpc Hrest]%andb_true_iff. apply N.eqb_eq in Hpc as ->.
  f_equal. by apply IH.
Qed.

Lemma startswith_occurs_at sub text :
  startswith sub text = true ↔ occurs_at sub [] text.
Proof.
  split.
  - intros H. exists (drop (length sub) text). by apply startswith_inv.
  - intros [r ->]. simpl. apply startswith_app.
Qed.

Lemma occurs_at_cons sub c l text :
  occurs_at sub (c :: l) (c :: text) ↔ occurs_at sub l text.
Proof.
  split; intros [r Hr]; exists r; simpl in *; congruence.
Qed.

Lemma occurs_at_cons_inv sub c l' text :
  occurs_at sub l' (c :: text) →
  occurs_at sub [] (c :: text) ∨ ∃ l, l' = c :: l ∧ occurs_at sub l text.
Proof.
  destruct l' as [|c' l]; [by left|].
  intros [r Hr]. simpl in Hr. injection Hr as <- Hr.
  right. exists l. split; [done|by exists r].
Qed.

Lemma contains_occurs sub text : contains sub text = true ↔ occurs sub text.
Proof.
  induction text as [|c text IH]; simpl.
  - rewrite orb_false_r, startswith_occurs_at. split; [by exists []|].
    intros [l [r Hr]]. destruct l; [by exists r|done].
  - rewrite orb_true_iff, startswith_occurs_at, IH. split.
    + intros [H|[l H]]; [by exists []|].
      exists (c :: l). by apply occurs_at_cons.
    + intros [l' H]. apply occurs_at_cons_inv in H as [H|(l & -> & H)];
        [by left|right; by exists l].
Qed.

Lemma not_contains_occurs sub text : contains sub text = false ↔ ¬ occurs sub text.
Proof. rewrite <- contains_occurs. by destruct (contains sub text). Qed.

Lemma contains_empty text : contains [] text = true.
Proof. by destruct text. Qed.

(** A text that contains [sub] has a leftmost occurrence. *)
Lemma contains_first_at sub text :
  contains sub text = true → ∃ l r, text = l ++ sub ++ r ∧ first_at sub l text.
Proof.
  induction text as [|c text IH]; simpl.
  - rewrite orb_false_r. intros H%startswith_inv.
    exists [], (drop (length sub) []). split; [done|].
    split; [by eexists|]. intros; simpl; lia.
  - destruct (startswith sub (c :: text)) eqn:Hsw; simpl.
    + intros _. apply startswith_inv in Hsw as Heq.
      exists [], (drop (length sub) (c :: text)). split; [done|].
      split; [by eexists|]. intros; simpl; lia.
    + intros (l & r & Heq & [_ Hmin])%IH.
      exists (c :: l), r. split; [by rewrite Heq|].
      split; [exists r; by rewrite Heq|].
      intros l' [H|(l0 & -> & H)]%occurs_at_cons_inv.
      * apply startswith_occurs_at in H. congruence.
      * simpl. apply Hmin in H. lia.
Qed.

Lemma first_at_cons sub c l text :
  first_at sub (c :: l) (c :: text) → first_at sub l text.
Proof.
  intros [Hocc Hmin]. split; [by apply occurs_at_cons in Hocc|].
  intros l' Hl'. specialize (Hmin (c :: l')). simpl in Hmin.
  rewrite occurs_at_cons in Hmin. specialize (Hmin Hl'). lia.
Qed.

Lemma first_at_cons_startswith sub c l text :
  first_at sub (c :: l) text → startswith sub text = false.
Proof.
  intros [_ Hmin]. destruct (startswith sub text) eqn:Hsw; [|done].
  apply startswith_occurs_at, Hmin in Hsw. simpl in Hsw. lia.
Qed.
End startswith_contains.

Section replace_facts.
Implicit Types sub old new text l r : str.

(** The three equations of the scan, for a non-empty [old]. *)
Lemma replace_nil old new : old ≠ [] → replace old new [] = [].
Proof. destruct old; [done|]. intros _. simpl. by simp replace_nonempty. Qed.

Lemma replace_match old new text :
  old ≠ [] → startswith old text = true →
  replace old new text = new ++ replace old new (drop (length old) text).
Proof.
  destruct old as [|o old']; [done|]. intros _ Hsw.
  destruct text as [|c t]; [done|].
  simpl. simp replace_nonempty. by rewrite Hsw.
Qed.

Lemma replace_skip old new c t :
  old ≠ [] → startswith old (c :: t) = false →
  replace old new (c :: t) = c :: replace old new t.
Proof.
  destruct old as [|o old']; [done|]. intros _ Hsw.
  simpl. simp replace_nonempty. by rewrite Hsw.
Qed.

Lemma contains_nonempty old text : contains old text = false → old ≠ [].
Proof. intros H ->. by rewrite contains_empty in H. Qed.

(** Without occurrence nothing changes. *)
Lemma replace_absent old new text :
  contains old text = false → replace old new text = text.
Proof.
  intros H. pose proof (contains_nonempty _ _ H) as Hne.
  induction text as [|c t IH]; [by apply replace_nil|].
  simpl in H. apply orb_false_iff in H as [Hsw Hrest].
  rewrite replace_skip by done. f_equal. by apply IH.
Qed.

(** The text before the leftmost occurrence is copied, the occurrence is
    replaced, and the scan goes on in the rest. *)
Lemma replace_first_at old new l r :
  old ≠ [] → first_at old l (l ++ old ++ r) →
  replace old new (l ++ old ++ r) = l ++ new ++ replace old new r.
Proof.
  intros Hne. induction l as [|c l IH]; intros Hfirst; simpl.
  - rewrite replace_match by (done || apply startswith_app).
    by rewrite drop_app_length.
  - rewrite replace_skip; [|done|by eapply first_at_cons_startswith].
    f_equal. apply IH. by eapply first_at_cons.
Qed.

Lemma replace_replaced_all old new text :
  old ≠ [] → replaced_all old new text (replace old new text).
Proof.
  intros Hne. remember (length text) as n eqn:Hn. revert text Hn.
  induction n as [n IH] using lt_wf_ind. intros text ->.
  destruct (contains old text) eqn:Hc.
  - destruct (contains_first_at _ _ Hc) as (l & r & -> & Hfirst).
    rewrite replace_first_at by done.
    apply replaced_next; [done|].
    apply (IH (length r)); [|done].
    rewrite !length_app. destruct old; [done|simpl; lia].
  - rewrite replace_absent by done.
    apply replaced_none. by apply not_contains_occurs.
Qed.

Lemma replaced_all_replace old new text out :
  old ≠ [] → replaced_all old new text out → out = replace old new text.
Proof.
  intros Hne. induction 1 as [text Hno|l r r' Hfirst _ IH].
  - symmetry. by apply replace_absent, not_contains_occurs.
  - rewrite replace_first_at by done. by rewrite IH.
Qed.

(** A single occurrence: only that span changes. *)
Lemma replace_only_at old new l r :
  only_at old l (l ++ old ++ r) →
  replace old new (l ++ old ++ r) = l ++ new ++ r.
Proof.
  intros [Hocc Huniq]. destruct (decide (old = [])) as [->|Hne].
  - assert (l = []) as ->.
    { symmetry. apply Huniq. by exists (l ++ [] ++ r). }
    assert (r = []) as ->.
    { destruct r as [|c r]; [done|].
      assert ([c] = []) by (apply Huniq; by exists r). done. }
    done.
  - rewrite replace_first_at; [|done|].
    + do 2 f_equal. apply replace_absent, not_contains_occurs.
      intros [l' [r' ->]].
      assert (l ++ old ++ l' = l) as Heq.
      { apply Huniq. exists r'. by rewrite <- !app_assoc. }
      apply (f_equal length) in Heq. rewrite !length_app in Heq.
      destruct old; [done|simpl in Heq; lia].
    + split; [done|]. intros l' ->%Huniq. done.
Qed.

(** Replacing a string by itself. *)
Lemma interleave_nil text : interleave [] text = text.
Proof. induction text as [|c t IH]; simpl; by rewrite ?IH. Qed.

Lemma replace_same old text : replace old old text = text.
Proof.
  destruct (decide (old = [])) as [->|Hne]; [apply interleave_nil|].
  remember (length text) as n eqn:Hn. revert text Hn.
  induction n as [n IH] using lt_wf_ind. intros [|c t] ->.
  { by apply replace_nil. }
  destruct (startswith old (c :: t)) eqn:Hsw.
  - rewrite replace_match by done.
    rewrite (IH (length (drop (length old) (c :: t)))); [| |done].
    + symmetry. by apply startswith_inv.
    + rewrite length_drop. destruct old; [done|simpl; lia].
  - rewrite replace_skip by done. f_equal.
    apply (IH (length t)); [simpl; lia|done].
Qed.

(** The empty pattern. *)
Lemma replace_empty new text : replace [] new text = at_every_boundary new text.
Proof.
  unfold at_every_boundary. simpl.
  induction text as [|c t IH]; simpl; [by rewrite app_nil_r|].
  rewrite <- !app_assoc. simpl. by rewrite IH.
Qed.
End replace_facts.

(** The scan on small inputs: matches are taken from the left and do not
    overlap; the empty pattern matches at every boundary; a deletion can
    bring two halves of a new occurrence together. *)
Example replace_overlapping : replace (py "aa") (py "b") (py "aaa") = py "ba".
Proof. reflexivity. Qed.

Example replace_empty_pattern : replace [] (py "-") (py "abc") = py "-a-b-c-".
Proof. reflexivity. Qed.

Example replace_empty_text : replace [] (py "X") [] = py "X".
Proof. reflexivity. Qed.

Example replace_deletion : replace (py "ab") [] (py "aabb") = py "ab".
Proof. reflexivity. Qed.

(** * Strings that do not overlap *)

Lemma startswith_app_agree (q n x : str) :
  startswith q (n ++ x) = true → agree q n = true.
Proof.
  unfold agree. revert n. induction q as [|q0 q IH]; intros [|n0 n]; simpl; try done.
  intros [Heq Hrest]%andb_true_iff. apply IH in Hrest.
  apply N.eqb_eq in Heq as ->. by rewrite !N.eqb_refl.
Qed.

Lemma app_eq_agree (a b x y : str) : a ++ x = b ++ y → agree a b = true.
Proof.
  intros Heq. apply (startswith_app_agree a b y).
  rewrite <- Heq. apply startswith_app.
Qed.

Lemma suffixes_head (s : str) : s ≠ [] → In s (suffixes s).
Proof. destruct s; [done|]. intros _. by left. Qed.

Lemma suffixes_tail (c : codepoint) (q s : str) :
  In (c :: q) (suffixes s) → q = [] ∨ In q (suffixes s).
Proof.
  induction s as [|a s IH]; simpl; [done|].
  intros [Heq|Hin].
  - injection Heq as _ ->. destruct q as [|q0 q]; [by left|].
    right. right. by left.
  - destruct (IH Hin) as [->|H]; [by left|]. right. by right.
Qed.

Lemma suffixes_first (q s : str) :
  In q (suffixes s) → ∃ c q', q = c :: q' ∧ In c s.
Proof.
  induction s as [|a s IH]; simpl; [done|].
  intros [<-|Hin].
  - exists a, s. split; [done|by left].
  - destruct (IH Hin) as (c & q' & -> & Hc).
    exists c, q'. split; [done|by right].
Qed.

Section overlap_free.
Variables old new : str.
Hypothesis old_nonempty : old ≠ [].
Hypothesis free : overlap_free old new = true.

Lemma free_old (q : str) : In q (suffixes old) → agree q new = false.
Proof.
  apply andb_true_iff in free as [H _].
  rewrite forallb_forall in H. intros Hq%H. by apply negb_true_iff.
Qed.

Lemma free_new (n : str) : In n (suffixes new) → agree old n = false.
Proof.
  apply andb_true_iff in free as [_ H].
  rewrite forallb_forall in H. intros Hn%H. by apply negb_true_iff.
Qed.

Lemma free_agree : agree old new = false.
Proof. by apply free_old, suffixes_head. Qed.

(** An end of [old] that starts the output also starts the input: the
    output begins with [new] only where the input begins with [old]. *)
Lemma startswith_replace (t q : str) :
  q = [] ∨ In q (suffixes old) →
  startswith q (replace old new t) = true → startswith q t = true.
Proof.
  revert q. induction t as [|c t IH]; intros q Hq.
  - rewrite replace_nil by done. by destruct q.
  - destruct (startswith old (c :: t)) eqn:Hsw.
    + rewrite replace_match by done.
      destruct Hq as [->|Hq]; [done|].
      intros H%startswith_app_agree. by rewrite free_old in H.
    + rewrite replace_skip by done.
      destruct q as [|q0 q]; [done|]. simpl.
      intros [-> Hrest]%andb_true_iff. simpl.
      apply (IH q); [|done].
      destruct Hq as [?|Hq]; [done|]. by eapply suffixes_tail.
Qed.

(** No occurrence of [old] starts inside a copy of [new]. *)
Lemma contains_after_new (n x : str) :
  (∀ n', In n' (suffixes n) → In n' (suffixes new)) →
  contains old (n ++ x) = contains old x.
Proof.
  induction n as [|a n IH]; intros Hsub; simpl; [done|].
  rewrite IH by (intros n' Hn'; apply Hsub; by right).
  destruct (startswith old (a :: n ++ x)) eqn:Hsw; [|done].
  apply (startswith_app_agree old (a :: n) x) in Hsw.
  rewrite free_new in Hsw; [done|]. apply Hsub. by left.
Qed.

(** After the replacement no occurrence of [old] is left. *)
Lemma replace_no_occurrence (text : str) :
  contains old (replace old new text) = false.
Proof.
  remember (length text) as k eqn:Hk. revert text Hk.
  induction k as [k IH] using lt_wf_ind. intros [|c t] ->.
  - rewrite replace_nil by done. simpl. by destruct old.
  - destruct (startswith old (c :: t)) eqn:Hsw.
    + rewrite replace_match by done.
      rewrite contains_after_new by done.
      apply (IH (length (drop (length old) (c :: t)))); [|done].
      rewrite length_drop. destruct old; [done|simpl; lia].
    + destruct (startswith old (replace old new (c :: t))) eqn:Hout.
      { apply startswith_replace in Hout; [congruence|].
        right. by apply suffixes_head. }
      rewrite replace_skip in * by done. simpl. rewrite Hout. simpl.
      apply (IH (length t)); [simpl; lia|done].
Qed.

(** A text with an occurrence is changed. *)
Lemma replace_changes (text : str) :
  contains old text = true → replace old new text ≠ text.
Proof.
  intros (l & r & -> & Hfirst)%contains_first_at.
  rewrite replace_first_at by done.
  intros Heq%app_inv_head%eq_sym%app_eq_agree.
  by rewrite free_agree in Heq.
Qed.
End overlap_free.

Lemma disjoint_chars_overlap_free (old new : str) :
  old ≠ [] → new ≠ [] → disjoint_chars old new → overlap_free old new = true.
Proof.
  intros Ho Hn Hdis. unfold overlap_free.
  apply andb_true_iff. split; apply forallb_forall.
  - intros q (c & q' & -> & Hc)%suffixes_first.
    destruct new as [|n0 new']; [done|].
    apply negb_true_iff. unfold agree. simpl.
    destruct (N.eqb_spec c n0) as [->|Hne].
    + destruct (Hdis n0 Hc). by left.
    + by rewrite (proj2 (N.eqb_neq n0 c)) by done.
  - intros n (c & n' & -> & Hc)%suffixes_first.
    destruct old as [|o old']; [done|].
    apply negb_true_iff. unfold agree. simpl.
    destruct (N.eqb_spec o c) as [->|Hne].
    + destruct (Hdis c); [by left|done].
    + by rewrite (proj2 (N.eqb_neq c o)) by done.
Qed.

(** The replacement is in the output of a text that had an occurrence. *)
Lemma replace_contains_new (old new text : str) :
  contains old text = true → contains new (replace old new text) = true.
Proof.
  intros Hc. apply contains_occurs.
  destruct (decide (old = [])) as [->|Hne].
  - exists [], (interleave new text). done.
  - destruct (contains_first_at _ _ Hc) as (l & r & -> & Hfirst).
    rewrite replace_first_at by done. by exists l, (replace old new r).
Qed.


Lemma contains_length (sub text : str) :
  contains sub text = true → length sub ≤ length text.
Proof.
  intros [l [r ->]]%contains_occurs. rewrite !length_app. lia.
Qed.

Lemma startswith_contains (sub text : str) :
  startswith sub text = true → contains sub text = true.
Proof. intros H. destruct text; simpl; by rewrite H. Qed.

Lemma interleave_length (new text : str) :
  length (interleave new text) = length text + length text * length new.
Proof.
  induction text as [|c t IH]; simpl; [done|].
  rewrite length_app, IH. lia.
Qed.

(** * Patterns of one code point *)

Lemma replace_single (c0 : codepoint) (new s : str) :
  replace [c0] new s = flat_map (λ c, if (c0 =? c)%N then new else [c]) s.
Proof.
  induction s as [|c s IH]; [by apply replace_nil|].
  simpl flat_map. destruct (c0 =? c)%N eqn:Hc.
  - rewrite replace_match by (done || simpl; by rewrite Hc).
    change (drop (length [c0]) (c :: s)) with s. by rewrite IH.
  - rewrite replace_skip by (done || simpl; by rewrite Hc).
    by rewrite IH.
Qed.

Lemma contains_single (c0 : codepoint) (s : str) :
  contains [c0] s = true ↔ In c0 s.
Proof.
  induction s as [|c s IH]; simpl; [done|].
  rewrite orb_true_iff, IH, andb_true_r, N.eqb_eq.
  split; (intros [->|?]; [by left|by right]).
Qed.

Lemma not_contains_single (c0 : codepoint) (s : str) :
  contains [c0] s = false ↔ Forall (λ c, c ≠ c0) s.
Proof.
  rewrite <- not_true_iff_false, contains_single.
  induction s as [|c s IH]; simpl.
  - split; [constructor|tauto].
  - rewrite Forall_cons, <- IH. split; [|intros [? ?] [?|?]; done].
    intros H. split; intros ?; apply H; [by left|by right].
Qed.

Lemma contains_head (c0 : codepoint) (sub s : str) :
  contains (c0 :: sub) s = true → contains [c0] s = true.
Proof.
  intros [l [r ->]]%contains_occurs. apply contains_occurs.
  exists l, (sub ++ r). done.
Qed.

Lemma startswith_cons_ne (p c : codepoint) (sub t : str) :
  p ≠ c → startswith (p :: sub) (c :: t) = false.
Proof. intros H. cbn [startswith]. by rewrite (proj2 (N.eqb_neq p c)). Qed.

(** * What [replace] keeps *)

Lemma Forall_interleave (P : codepoint → Prop) (new text : str) :
  Forall P text → Forall P new → Forall P (interleave new text).
Proof.
  intros Ht Hn. induction Ht as [|c t Hc Ht IH]; simpl; [done|].
  constructor; [done|]. by apply Forall_app.
Qed.

(** Every code point of the output comes from the text or from [new]. *)
Lemma Forall_replace (P : codepoint → Prop) (old new text : str) :
  Forall P text → Forall P new → Forall P (replace old new text).
Proof.
  intros Ht Hn. destruct (decide (old = [])) as [->|Hne].
  { simpl. apply Forall_app. split; [done|by apply Forall_interleave]. }
  remember (length text) as n eqn:Hlen. revert text Hlen Ht.
  induction n as [n IH] using lt_wf_ind. intros [|c t] -> Ht.
  { by rewrite replace_nil. }
  destruct (startswith old (c :: t)) eqn:Hsw.
  - rewrite replace_match by done. apply Forall_app. split; [done|].
    apply (IH (length (drop (length old) (c :: t)))); [|done|by apply Forall_drop].
    rewrite length_drop. destruct old; [done|simpl; lia].
  - rewrite replace_skip by done. apply Forall_cons in Ht as [Hc Ht].
    constructor; [done|]. apply (IH (length t)); [simpl; lia|done|done].
Qed.

Lemma encodable_Forall (s : str) :
  encodable s = true ↔ Forall (λ c, scalar c = true) s.
Proof.
  unfold encodable. induction s as [|c s IH]; simpl; [done|].
  by rewrite andb_true_iff, Forall_cons, IH.
Qed.

Lemma encodable_replace (old new text : str) :
  encodable text = true → encodable new = true →
  encodable (replace old new text) = true.
Proof. rewrite !encodable_Forall. apply Forall_replace. Qed.

Lemma no_cr_replace (old new text : str) :
  contains CR text = false → contains CR new = false →
  contains CR (replace old new text) = false.
Proof. unfold CR. rewrite !not_contains_single. apply Forall_replace. Qed.

(** * Line endings *)

Lemma universal_newlines_no_cr (raw : str) :
  contains CR (universal_newlines raw) = false.
Proof. by apply replace_no_occurrence. Qed.

Lemma universal_newlines_id (s : str) :
  contains CR s = false → universal_newlines s = s.
Proof.
  intros Hcr. unfold universal_newlines.
  rewrite (replace_absent CRLF), replace_absent; [done..|].
  destruct (contains CRLF s) eqn:H; [|done].
  assert (contains CR s = true) by exact (contains_head 13%N [10%N] s H).
  congruence.
Qed.

Lemma write_newlines_app (os : platform) (a b : str) :
  write_newlines os (a ++ b) = write_newlines os a ++ write_newlines os b.
Proof.
  unfold write_newlines, LF. rewrite !replace_single. apply flat_map_app.
Qed.

Lemma write_newlines_posix (s : str) : write_newlines Posix s = s.
Proof. apply replace_same. Qed.

(** Text without [\r] is read back as it was written, on both
    platforms. *)
Lemma read_write_newlines (os : platform) (s : str) :
  contains CR s = false → universal_newlines (write_newlines os s) = s.
Proof.
  intros Hcr. destruct os.
  { rewrite write_newlines_posix. by apply universal_newlines_id. }
  unfold universal_newlines, write_newlines, linesep.
  assert (replace CRLF LF (replace LF CRLF s) = s) as ->.
  { unfold CR in Hcr. apply not_contains_single in Hcr.
    unfold LF at 2. rewrite replace_single.
    induction Hcr as [|c t Hc Ht IH]; [done|].
    cbn [flat_map]. destruct (N.eqb_spec 10 c) as [<-|Hlf]; cbv iota.
    - rewrite replace_match by (done || apply startswith_app).
      rewrite drop_app_length, IH. done.
    - cbn [app]. rewrite (replace_skip CRLF); [by rewrite IH|done|].
      by apply (startswith_cons_ne 13%N c [10%N]). }
  by apply replace_absent.
Qed.

Lemma encodable_universal_newlines (raw : str) :
  encodable raw = true → encodable (universal_newlines raw) = true.
Proof.
  intros H. unfold universal_newlines.
  by repeat apply encodable_replace.
Qed.

Lemma encodable_write_newlines (os : platform) (s : str) :
  encodable s = true → encodable (write_newlines os s) = true.
Proof.
  intros H. apply encodable_replace; [done|]. by destruct os.
Qed.

(** * UTF-8 *)

Ltac Zify.zify_post_hook ::= Z.to_euclidean_division_equations.

Ltac bools :=
  repeat match goal with
  | H : _ && _ = true |- _ => apply andb_true_iff in H as [? ?]
  | H : _ || _ = true |- _ => apply orb_true_iff in H as [?|?]
  | H : (_ <? _)%N = true |- _ => apply N.ltb_lt in H
  | H : (_ <? _)%N = false |- _ => apply N.ltb_ge in H
  | H : (_ <=? _)%N = true |- _ => apply N.leb_le in H
  | H : (_ <=? _)%N = false |- _ => apply N.leb_gt in H
  end.

Ltac decide_tests :=
  repeat match goal with
  | |- context [(?a <? ?b)%N] =>
      first [ rewrite (proj2 (N.ltb_lt a b)) by lia
            | rewrite (proj2 (N.ltb_ge a b)) by lia ]
  | |- context [(?a <=? ?b)%N] =>
      first [ rewrite (proj2 (N.leb_le a b)) by lia
            | rewrite (proj2 (N.leb_gt a b)) by lia ]
  end.

Lemma utf8_decode_char (c : codepoint) (rest : bytes) :
  scalar c = true →
  utf8_decode (utf8_char c ++ rest) = cons c <$> utf8_decode rest.
Proof.
  intros Hs. pose proof Hs as Hs'. unfold scalar in Hs'. unfold utf8_char.
  destruct (c <? 0x80)%N eqn:H1; [simpl; by rewrite H1|].
  destruct (c <? 0x800)%N eqn:H2.
  { cbn [app utf8_decode]. unfold continuation.
    assert ((192 + c / 64 - 192) * 64 + (128 + c mod 64 - 128) = c)%N as ->
      by (bools; lia).
    bools; try lia; decide_tests; cbn [andb]; done. }
  destruct (c <? 0x10000)%N eqn:H3.
  { cbn [app utf8_decode]. unfold continuation.
    assert (((224 + c / 4096 - 224) * 64 + (128 + (c / 64) mod 64 - 128)) * 64 +
             (128 + c mod 64 - 128) = c)%N as -> by (bools; lia).
    rewrite Hs. bools; try lia; decide_tests; cbn [andb]; done. }
  cbn [app utf8_decode]. unfold continuation.
  assert ((((240 + c / 262144 - 240) * 64 + (128 + (c / 4096) mod 64 - 128)) * 64 +
            (128 + (c / 64) mod 64 - 128)) * 64 + (128 + c mod 64 - 128) = c)%N as ->
    by (bools; lia).
  bools; try lia; decide_tests; cbn [andb]; done.
Qed.

Lemma utf8_decode_encode (s : str) :
  forallb scalar s = true → utf8_decode (utf8 s) = Some s.
Proof.
  induction s as [|c s IH]; [done|]. simpl.
  intros [Hc Hs]%andb_true_iff.
  rewrite utf8_decode_char by done. by rewrite IH.
Qed.

Lemma utf8_cons (c : codepoint) (s : str) (bs : bytes) :
  utf8_char c = bs → scalar c = true → forallb scalar s = true →
  utf8 (c :: s) = bs ++ utf8 s ∧ forallb scalar (c :: s) = true.
Proof. intros <- Hc Hs. simpl. by rewrite Hc, Hs. Qed.

Lemma utf8_encode_decode (b : bytes) (s : str) :
  utf8_decode b = Some s → utf8 s = b ∧ forallb scalar s = true.
Proof.
  remember (length b) as n eqn:Hn. revert b s Hn.
  induction n as [n IH] using lt_wf_ind. intros [|b0 t0] s -> Hdec.
  { injection Hdec as <-. done. }
  cbn [utf8_decode] in Hdec.
  destruct (b0 <? 0x80)%N eqn:H1.
  { destruct (utf8_decode t0) as [s'|] eqn:Ht; [|done]. injection Hdec as <-.
    destruct (IH (length t0) ltac:(simpl; lia) t0 s' eq_refl Ht) as [<- Hs].
    apply (utf8_cons b0 s' [b0]); [|unfold scalar|done];
      [unfold utf8_char; by rewrite H1|].
    bools. decide_tests. done. }
  destruct (b0 <? 0xC0)%N eqn:H2; [done|].
  destruct (b0 <? 0xE0)%N eqn:H3.
  { destruct t0 as [|b1 t1]; [done|].
    destruct (continuation b1 && _) eqn:Hok; [|done].
    destruct (utf8_decode t1) as [s'|] eqn:Ht; [|done]. injection Hdec as <-.
    destruct (IH (length t1) ltac:(simpl; lia) t1 s' eq_refl Ht) as [<- Hs].
    unfold continuation in Hok. bools.
    apply (utf8_cons _ s' [b0; b1]); [| |done].
    - unfold utf8_char. decide_tests. f_equal; [lia|f_equal; lia].
    - unfold scalar. decide_tests. done. }
  destruct (b0 <? 0xF0)%N eqn:H4.
  { destruct t0 as [|b1 [|b2 t2]]; [done..|].
    destruct (continuation b1 && _ && _ && _) eqn:Hok; [|done].
    destruct (utf8_decode t2) as [s'|] eqn:Ht; [|done]. injection Hdec as <-.
    destruct (IH (length t2) ltac:(simpl; lia) t2 s' eq_refl Ht) as [<- Hs].
    apply andb_true_iff in Hok as [Hok Hsc].
    unfold continuation in Hok. bools.
    apply (utf8_cons _ s' [b0; b1; b2]); [|done|done].
    unfold utf8_char. decide_tests. f_equal; [lia|f_equal; [lia|f_equal; lia]]. }
  destruct (b0 <? 0xF8)%N eqn:H5; [|done].
  destruct t0 as [|b1 [|b2 [|b3 t3]]]; [done..|].
  destruct (continuation b1 && _ && _ && _ && _) eqn:Hok; [|done].
  destruct (utf8_decode t3) as [s'|] eqn:Ht; [|done]. injection Hdec as <-.
  destruct (IH (length t3) ltac:(simpl; lia) t3 s' eq_refl Ht) as [<- Hs].
  unfold continuation in Hok. bools.
  apply (utf8_cons _ s' [b0; b1; b2; b3]); [| |done].
  - unfold utf8_char. decide_tests.
    f_equal; [lia|f_equal; [lia|f_equal; [lia|f_equal; lia]]].
  - unfold scalar. decide_tests. done.
Qed.

Lemma utf8_app (a b : str) : utf8 (a ++ b) = utf8 a ++ utf8 b.
Proof. apply flat_map_app. Qed.

Lemma stored_app (os : platform) (a b : str) :
  stored os (a ++ b) = stored os a ++ stored os b.
Proof. unfold stored. by rewrite write_newlines_app, utf8_app. Qed.

(** What was written is what is read, for a text that can be encoded and
    has no [\r]. *)
Lemma decode_text_stored (os : platform) (data : str) :
  encodable data = true → contains CR data = false →
  decode_text (stored os data) = Some data.
Proof.
  intros Henc Hcr. unfold decode_text, stored.
  rewrite utf8_decode_encode by by apply encodable_write_newlines.
  simpl. by rewrite read_write_newlines.
Qed.

(** A text that was read can be encoded and has no [\r]. *)
Lemma decode_text_inv (b : bytes) (text : str) :
  decode_text b = Some text →
  encodable text = true ∧ contains CR text = false.
Proof.
  unfold decode_text. destruct (utf8_decode b) as [raw|] eqn:Hraw; [|done].
  intros [= <-]. apply utf8_encode_decode in Hraw as [_ Hraw]. split.
  - by apply encodable_universal_newlines.
  - apply universal_newlines_no_cr.
Qed.

Lemma encodable_write_newlines_inv (os : platform) (s : str) :
  encodable (write_newlines os s) = true → encodable s = true.
Proof.
  rewrite !encodable_Forall. unfold write_newlines, LF. rewrite replace_single.
  induction s as [|c s IH]; [done|]. cbn [flat_map].
  intros [Hc Hrest]%Forall_app. constructor; [|by apply IH].
  destruct (N.eqb_spec 10 c) as [<-|Hlf]; [done|].
  by apply Forall_cons in Hc as [? _].
Qed.

(** A replacement that cannot be encoded makes the output of a text with
    an occurrence impossible to encode. *)
Lemma encodable_output (os : platform) (old new text : str) :
  contains old text = true → encodable text = true →
  encodable (write_newlines os (replace old new text)) = encodable new.
Proof.
  intros Hc Ht. destruct (encodable new) eqn:Hn.
  { by apply encodable_write_newlines, encodable_replace. }
  apply not_true_iff_false. intros Hout%encodable_write_newlines_inv.
  apply (replace_contains_new old new) in Hc.
  apply contains_occurs in Hc as [l [r Hc]]. rewrite Hc in Hout.
  apply encodable_Forall in Hout.
  apply Forall_app in Hout as [_ Hout]. apply Forall_app in Hout as [Hout _].
  apply encodable_Forall in Hout. congruence.
Qed.

(** * The script's own literals *)

Lemma script_old_nonempty : old ≠ [].
Proof. done. Qed.

Lemma script_overlap_free : overlap_free old new = true.
Proof. vm_compute. reflexivity. Qed.

Lemma script_new_encodable : encodable new = true.
Proof. vm_compute. reflexivity. Qed.

Lemma script_new_no_cr : contains CR new = false.
Proof. vm_compute. reflexivity. Qed.

(** * Running the script *)

Lemma content_Some (w : world) (p : string) (b : bytes) :
  content w p = Some b ↔ ∃ i, names w !! p = Some i ∧ disk w !! i = Some b.
Proof.
  unfold content. destruct (names w !! p) as [i|]; simpl.
  - split; [intros H; by exists i|by intros (? & [= <-] & ?)].
  - split; [done|by intros (? & [=] & _)].
Qed.

Lemma file_text_inv (w : world) (p : string) (text : str) :
  file_text w p = Some text →
  ∃ i b, names w !! p = Some i ∧ disk w !! i = Some b ∧
         content w p = Some b ∧ decode_text b = Some text.
Proof.
  unfold file_text. destruct (content w p) as [b|] eqn:Hb; [|done]. simpl.
  intros Hdec. apply content_Some in Hb as Hi. destruct Hi as (i & Hi & Hd).
  by exists i, b.
Qed.

Lemma file_text_encodable (w : world) (p : string) (text : str) :
  file_text w p = Some text → encodable text = true.
Proof. intros (i & b & _ & _ & _ & [? _]%decode_text_inv)%file_text_inv. done. Qed.

Lemma file_text_no_cr (w : world) (p : string) (text : str) :
  file_text w p = Some text → contains CR text = false.
Proof. intros (i & b & _ & _ & _ & [_ ?]%decode_text_inv)%file_text_inv. done. Qed.

(** The text of a file that has just been written. *)
Lemma file_text_written (os : platform) (ns : gmap string nat)
    (d : gmap nat bytes) (log : list event) (p : string) (i : nat) (data : str) :
  ns !! p = Some i →
  encodable data = true → contains CR data = false →
  file_text (World os ns (<[i := stored os data]> d) log) p = Some data.
Proof.
  intros Hi Henc Hcr. unfold file_text, content. cbn [names disk].
  rewrite Hi. simpl. rewrite lookup_insert_eq. simpl.
  by apply decode_text_stored.
Qed.

Section run.
Variables (path : string) (old new : str) (w : world).

Lemma read_text_ok (text : str) :
  file_text w path = Some text →
  read_text path w =
    (Returns text, World (os w) (names w) (disk w) (events w ++ [ReadText path])).
Proof.
  intros (i & b & _ & _ & Hb & Hdec)%file_text_inv.
  unfold read_text. rewrite Hb. unfold decode_text in Hdec.
  destruct (utf8_decode b) as [raw|]; [|done]. by injection Hdec as <-.
Qed.

(** No file: the read raises and nothing else happens. *)
Lemma python_missing :
  content w path = None →
  python (applyPatch path old new) w =
    Process 1 (Traceback (FileNotFoundError path)) w.
Proof.
  intros Hnone. unfold python, applyPatch, mbind, Py_bind, read_text.
  by rewrite Hnone.
Qed.

(** Bytes that are not UTF-8: the read raises after the file was read. *)
Lemma python_undecodable (b : bytes) :
  content w path = Some b → utf8_decode b = None →
  python (applyPatch path old new) w =
    Process 1 (Traceback UnicodeDecodeError)
            (World (os w) (names w) (disk w) (events w ++ [ReadText path])).
Proof.
  intros Hb Hdec. unfold python, applyPatch, mbind, Py_bind, read_text.
  by rewrite Hb, Hdec.
Qed.

(** The guard fires: one read, then the exception. *)
Lemma applyPatch_absent (text : str) :
  file_text w path = Some text →
  contains old text = false →
  applyPatch path old new w =
    (Raises (SystemExit "pattern not found"),
     World (os w) (names w) (disk w) (events w ++ [ReadText path])).
Proof.
  intros Hfile Hc. unfold applyPatch, mbind, Py_bind.
  by rewrite (read_text_ok text), Hc.
Qed.

Lemma python_absent (text : str) :
  file_text w path = Some text →
  contains old text = false →
  python (applyPatch path old new) w =
    Process 1 (Message "pattern not found")
            (World (os w) (names w) (disk w) (events w ++ [ReadText path])).
Proof. intros Hfile Hc. unfold python. by rewrite (applyPatch_absent text). Qed.

(** The guard passes: one read, then the write, which succeeds when the
    replacement can be encoded and otherwise leaves the file empty. *)
Lemma applyPatch_write (text : str) (i : nat) :
  file_text w path = Some text →
  names w !! path = Some i →
  contains old text = true →
  applyPatch path old new w =
    if encodable new
    then (Returns (length (replace old new text)),
          World (os w) (names w)
                (<[i := stored (os w) (replace old new text)]> (disk w))
                (events w ++ [ReadText path; WriteText path (replace old new text)]))
    else (Raises UnicodeEncodeError,
          World (os w) (names w) (<[i := []]> (disk w))
                (events w ++ [ReadText path; WriteText path (replace old new text)])).
Proof.
  intros Hfile Hi Hc. unfold applyPatch, mbind, Py_bind.
  rewrite (read_text_ok text), Hc by done. cbn [negb].
  unfold write_text. cbn [names disk os events]. rewrite Hi.
  rewrite encodable_output by (done || by eapply file_text_encodable).
  rewrite <- !app_assoc. by destruct (encodable new).
Qed.

Lemma python_present (text : str) (i : nat) :
  file_text w path = Some text →
  names w !! path = Some i →
  contains old text = true →
  encodable new = true →
  python (applyPatch path old new) w =
    Process 0 Silent
      (World (os w) (names w)
             (<[i := stored (os w) (replace old new text)]> (disk w))
             (events w ++ [ReadText path; WriteText path (replace old new text)])).
Proof.
  intros Hfile Hi Hc Henc. unfold python.
  by rewrite (applyPatch_write text i), Henc.
Qed.

Lemma python_unencodable (text : str) (i : nat) :
  file_text w path = Some text →
  names w !! path = Some i →
  contains old text = true →
  encodable new = false →
  python (applyPatch path old new) w =
    Process 1 (Traceback UnicodeEncodeError)
      (World (os w) (names w) (<[i := []]> (disk w))
             (events w ++ [ReadText path; WriteText path (replace old new text)])).
Proof.
  intros Hfile Hi Hc Henc. unfold python.
  by rewrite (applyPatch_write text i), Henc.
Qed.
End run.

Lemma writes_app (log log' : list event) :
  writes (log ++ log') = writes log ++ writes log'.
Proof. apply List.filter_app. Qed.

(** Every run starts in one of three ways: no file, a file that is not
    UTF-8, or a file with a text. *)
Lemma run_cases (path : string) (w : world) :
  content w path = None ∨
  (∃ b, content w path = Some b ∧ utf8_decode b = None) ∨
  (∃ text i, file_text w path = Some text ∧ names w !! path = Some i).
Proof.
  destruct (content w path) as [b|] eqn:Hb; [|by left]. right.
  destruct (utf8_decode b) as [raw|] eqn:Hraw; [|left; by exists b].
  right. apply content_Some in Hb as Hi. destruct Hi as (i & Hi & _).
  exists (universal_newlines raw), i. split; [|done].
  unfold file_text, decode_text. rewrite Hb. simpl. by rewrite Hraw.
Qed.

(** Exit status 0 means that the file was read, the guard passed and the
    write succeeded. *)
Lemma python_success_inv (path : string) (old new : str) (w : world) :
  exit_status (python (applyPatch path old new) w) = 0%Z →
  ∃ text i, file_text w path = Some text ∧ names w !! path = Some i ∧
            contains old text = true ∧ encodable new = true.
Proof.
  destruct (run_cases path w) as [Hnone|[(b & Hb & Hdec)|(text & i & Hfile & Hi)]].
  - by rewrite python_missing.
  - by rewrite (python_undecodable _ _ _ _ b).
  - destruct (contains old text) eqn:Hc.
    + destruct (encodable new) eqn:Henc.
      * intros _. by exists text, i.
      * by rewrite (python_unencodable _ _ _ _ text i).
    + by rewrite (python_absent _ _ _ _ text).
Qed.

Lemma one_file_text (os : platform) (p : string) (b : bytes) (text : str) :
  decode_text b = Some text → file_text (one_file os p b) p = Some text.
Proof.
  intros Hdec. unfold file_text, content, one_file. cbn [names disk].
  rewrite lookup_singleton_eq. simpl. by rewrite lookup_singleton_eq.
Qed.

(** An occurrence after [l] is found by looking at the position
    [length l]. *)
Lemma occurs_at_take (sub l text : str) :
  occurs_at sub l text →
  l = take (length l) text ∧
  startswith sub (drop (length l) text) = true ∧
  length l + length sub ≤ length text.
Proof.
  intros [r ->]. rewrite take_app_length, drop_app_length, !length_app.
  split; [done|]. split; [apply startswith_app|lia].
Qed.

(** * Properties stated by the specification *)

(** C1: for every file content in which the expected substring does not
    occur, the operation fails with the mismatch error
    ([SystemExit('pattern not found')]) before any write is performed: the
    only file operation is the read, and the file system is left as it
    was. *)
Theorem mismatch_raises_before_write (path : string) (old new : str) (w : world) (text : str) :
  file_text w path = Some text →
  ¬ occurs old text →
  ∃ w', applyPatch path old new w = (Raises (SystemExit "pattern not found"), w') ∧
        os w' = os w ∧ names w' = names w ∧ disk w' = disk w ∧
        events w' = events w ++ [ReadText path] ∧
        writes (events w') = writes (events w).
Proof.
  intros Hfile Hno%not_contains_occurs.
  eexists. split; [by eapply applyPatch_absent|]. simpl.
  repeat split. rewrite writes_app. simpl. apply app_nil_r.
Qed.

Lemma mismatch_raises_before_write_witness :
  ∃ w', applyPatch "f.yaml" (py "X" ++ LF) (py "Y")
          (one_file Posix "f.yaml" (utf8 (py "A" ++ LF ++ py "B" ++ LF ++ py "C" ++ LF))) =
          (Raises (SystemExit "pattern not found"), w') ∧
        os w' = Posix ∧
        names w' = {[ "f.yaml"%string := 0 ]} ∧
        disk w' = {[ 0 := utf8 (py "A" ++ LF ++ py "B" ++ LF ++ py "C" ++ LF) ]} ∧
        events w' = [ReadText "f.yaml"] ∧
        writes (events w') = [].
Proof.
  refine (mismatch_raises_before_write "f.yaml" (py "X" ++ LF) (py "Y")
            (one_file Posix "f.yaml" (utf8 (py "A" ++ LF ++ py "B" ++ LF ++ py "C" ++ LF)))
            (py "A" ++ LF ++ py "B" ++ LF ++ py "C" ++ LF) _ _).
  - apply one_file_text. reflexivity.
  - apply not_contains_occurs. reflexivity.
Defined.

(** Line endings are rewritten by a successful run.  On a file with
    Windows line endings, read on a Posix platform, the text is "A\nB\nC\n"
    and "B\n" is replaced; the file, which started with the bytes of
    "A\r\n", then holds the bytes of "A\nB2\nB3\nC\n". *)
Example crlf_file_rewritten_on_posix :
  file_text (one_file Posix "f.yaml" (utf8 (py "A" ++ CRLF ++ py "B" ++ CRLF ++ py "C" ++ CRLF)))
            "f.yaml" = Some (py "A" ++ LF ++ py "B" ++ LF ++ py "C" ++ LF) ∧
  python (applyPatch "f.yaml" (py "B" ++ LF) (py "B2" ++ LF ++ py "B3" ++ LF))
         (one_file Posix "f.yaml"
            (utf8 (py "A" ++ CRLF ++ py "B" ++ CRLF ++ py "C" ++ CRLF))) =
    Process 0 Silent
      (World Posix {[ "f.yaml"%string := 0 ]}
         {[ 0 := utf8 (py "A" ++ LF ++ py "B2" ++ LF ++ py "B3" ++ LF ++ py "C" ++ LF) ]}
         [ReadText "f.yaml";
          WriteText "f.yaml" (py "A" ++ LF ++ py "B2" ++ LF ++ py "B3" ++ LF ++ py "C" ++ LF)]).
Proof. split; vm_compute; reflexivity. Qed.

(** C2, as stated, does not hold for the bytes of the file.  Take the
    script on its own platform, Windows, and a file with Unix line endings
    that holds the line "index:" followed by [old].  The text read is that
    content, [old] occurs in it exactly once, after "index:\n", and the run
    succeeds; but the file, which started with the bytes of "index:\n",
    now starts with the bytes of "index:\r\n": a line outside the
    occurrence has changed. *)
Lemma other_content_not_byte_identical :
  file_text (one_file Windows path (utf8 (py "index:" ++ LF ++ old))) path =
    Some (py "index:" ++ LF ++ old) ∧
  only_at old (py "index:" ++ LF) (py "index:" ++ LF ++ old) ∧
  exit_status (python script_update
                 (one_file Windows path (utf8 (py "index:" ++ LF ++ old)))) = 0%Z ∧
  content (final (python script_update
                    (one_file Windows path (utf8 (py "index:" ++ LF ++ old))))) path =
    Some (utf8 (py "index:" ++ CRLF ++ write_newlines Windows new)) ∧
  ¬ ∃ rest,
      utf8 (py "index:" ++ CRLF ++ write_newlines Windows new) =
      utf8 (py "index:" ++ LF) ++ rest.
Proof.
  split; [vm_compute; reflexivity|]. split.
  { split; [exists []; by rewrite app_nil_r|].
    intros l' (Hl & Hsw & Hlen)%occurs_at_take. rewrite Hl.
    remember (length l') as k eqn:Hk. clear Hk Hl.
    do 8 (destruct k as [|k];
          [vm_compute in Hsw; try discriminate Hsw; reflexivity|]).
    assert (length old = 589) as Hold by (vm_compute; reflexivity).
    rewrite !length_app, Hold in Hlen. simpl in Hlen. lia. }
  split; [vm_compute; reflexivity|].
  split; [vm_compute; reflexivity|].
  intros [rest Hrest]. vm_compute in Hrest. discriminate Hrest.
Qed.

(** C2, amended: for every file whose text, as [read_text] returns it,
    contains the expected substring, and every replacement that can be
    encoded, the run succeeds and writes that text with every occurrence
    of the expected substring replaced (literal substrings, taken from the
    left), each [\n] stored as the line separator of the platform.  When
    the expected substring occurs exactly once, the text written is the
    text before it, the replacement, and the text after it; if the file
    was stored with the platform's line separator, the bytes before and
    after the occurrence are unchanged. *)
Theorem patch_replaces_every_occurrence (path : string) (old new : str) (w : world) (text : str) :
  file_text w path = Some text →
  occurs old text →
  encodable new = true →
  (∃ i, names w !! path = Some i ∧
        python (applyPatch path old new) w =
          Process 0 Silent
            (World (os w) (names w)
                   (<[i := stored (os w) (replace old new text)]> (disk w))
                   (events w ++ [ReadText path; WriteText path (replace old new text)]))) ∧
  content (final (python (applyPatch path old new) w)) path =
    Some (stored (os w) (replace old new text)) ∧
  (old ≠ [] → ∀ out, replaced_all old new text out ↔ out = replace old new text) ∧
  (∀ l r, text = l ++ old ++ r → only_at old l text →
          replace old new text = l ++ new ++ r ∧
          (content w path = Some (stored (os w) text) →
           content w path =
             Some (stored (os w) l ++ stored (os w) old ++ stored (os w) r) ∧
           content (final (python (applyPatch path old new) w)) path =
             Some (stored (os w) l ++ stored (os w) new ++ stored (os w) r))).
Proof.
  intros Hfile Hocc%contains_occurs Henc.
  destruct (file_text_inv _ _ _ Hfile) as (i & b & Hi & _ & _ & _).
  pose proof (python_present path old new w text i Hfile Hi Hocc Henc) as Hrun.
  assert (content (final (python (applyPatch path old new) w)) path =
          Some (stored (os w) (replace old new text))) as Hafter.
  { rewrite Hrun. unfold content. cbn [final names disk]. rewrite Hi. simpl.
    apply lookup_insert_eq. }
  split; [by exists i|]. split; [done|]. split.
  - intros Hne out. split; [by apply replaced_all_replace|].
    intros ->. by apply replace_replaced_all.
  - intros l r -> Honly.
    assert (replace old new (l ++ old ++ r) = l ++ new ++ r) as Hout
      by by apply replace_only_at.
    split; [done|]. intros Hbefore.
    rewrite Hafter, Hbefore, Hout. by rewrite !stored_app.
Qed.

Lemma patch_replaces_every_occurrence_witness :
  (∃ i, ({[ "f.yaml"%string := 0 ]} : gmap string nat) !! "f.yaml"%string = Some i ∧
        python (applyPatch "f.yaml" (py "ab") (py "xyz"))
               (one_file Windows "f.yaml" (utf8 (py "aabab"))) =
          Process 0 Silent
            (World Windows {[ "f.yaml"%string := 0 ]}
                   (<[i := stored Windows (py "axyzxyz")]> {[ 0 := utf8 (py "aabab") ]})
                   [ReadText "f.yaml"; WriteText "f.yaml" (py "axyzxyz")])) ∧
  content (final (python (applyPatch "f.yaml" (py "ab") (py "xyz"))
                         (one_file Windows "f.yaml" (utf8 (py "aabab"))))) "f.yaml" =
    Some (stored Windows (py "axyzxyz")) ∧
  (py "ab" ≠ [] →
   ∀ out, replaced_all (py "ab") (py "xyz") (py "aabab") out ↔ out = py "axyzxyz") ∧
  (∀ l r, py "aabab" = l ++ py "ab" ++ r → only_at (py "ab") l (py "aabab") →
          py "axyzxyz" = l ++ py "xyz" ++ r ∧
          (content (one_file Windows "f.yaml" (utf8 (py "aabab"))) "f.yaml" =
             Some (stored Windows (py "aabab")) →
           content (one_file Windows "f.yaml" (utf8 (py "aabab"))) "f.yaml" =
             Some (stored Windows l ++ stored Windows (py "ab") ++ stored Windows r) ∧
           content (final (python (applyPatch "f.yaml" (py "ab") (py "xyz"))
                                  (one_file Windows "f.yaml" (utf8 (py "aabab")))))
                   "f.yaml" =
             Some (stored Windows l ++ stored Windows (py "xyz") ++ stored Windows r))).
Proof.
  refine (patch_replaces_every_occurrence "f.yaml" (py "ab") (py "xyz")
            (one_file Windows "f.yaml" (utf8 (py "aabab"))) (py "aabab") _ _ _).
  - apply one_file_text. reflexivity.
  - apply contains_occurs. reflexivity.
  - reflexivity.
Defined.

(** After a successful run with a replacement without [\r], reading the
    file gives the text that was written. *)
Lemma file_text_after (path : string) (old new : str) (w : world) (text : str) :
  file_text w path = Some text →
  contains old text = true →
  encodable new = true →
  contains CR new = false →
  file_text (final (python (applyPatch path old new) w)) path =
    Some (replace old new text).
Proof.
  intros Hfile Hc Henc Hcr.
  destruct (file_text_inv _ _ _ Hfile) as (i & b & Hi & _ & _ & _).
  rewrite (python_present path old new w text i) by done. cbn [final].
  apply file_text_written; [done| |].
  - apply encodable_replace; [by eapply file_text_encodable|done].
  - apply no_cr_replace; [by eapply file_text_no_cr|done].
Qed.

Lemma content_after (path : string) (old new : str) (w : world) (text : str) :
  file_text w path = Some text →
  contains old text = true →
  encodable new = true →
  content (final (python (applyPatch path old new) w)) path =
    Some (stored (os w) (replace old new text)).
Proof.
  intros Hfile Hc Henc.
  destruct (file_text_inv _ _ _ Hfile) as (i & b & Hi & _ & _ & _).
  rewrite (python_present path old new w text i) by done.
  unfold content. cbn [final names disk]. rewrite Hi. simpl.
  apply lookup_insert_eq.
Qed.

(** C3, as stated (the script replaces only the first occurrence, so that
    for some content with a further occurrence after the first one the
    output keeps the rest as it was), does not hold: no such content
    exists. *)
Lemma first_occurrence_only_refuted :
  ¬ ∃ (w : world) (l r : str),
      file_text w path = Some (l ++ old ++ r) ∧
      first_at old l (l ++ old ++ r) ∧
      occurs old r ∧
      file_text (final (python script_update w)) path = Some (l ++ new ++ r).
Proof.
  intros (w & l & r & Hfile & Hfirst & Hocc%contains_occurs & Hout).
  unfold script_update in Hout.
  rewrite (file_text_after _ _ _ _ _ Hfile) in Hout;
    [|apply contains_occurs; by exists l, r
     |apply script_new_encodable|apply script_new_no_cr].
  apply (inj Some) in Hout.
  rewrite replace_first_at in Hout by (done || apply script_old_nonempty).
  apply app_inv_head, app_inv_head in Hout.
  by apply (replace_changes old new script_old_nonempty script_overlap_free r).
Qed.

(** C3, amended: the script replaces every occurrence, not only the first.
    For a content whose first occurrence of [old] comes after [l], the text
    written, and read back from the file, is [l], then [new], then the rest
    with its own occurrences replaced; a rest that contains [old] is
    changed and no [old] is left in it. *)
Theorem script_replaces_later_occurrences (w : world) (l r : str) :
  file_text w path = Some (l ++ old ++ r) →
  first_at old l (l ++ old ++ r) →
  file_text (final (python script_update w)) path =
    Some (l ++ new ++ replace old new r) ∧
  content (final (python script_update w)) path =
    Some (stored (os w) (l ++ new ++ replace old new r)) ∧
  (occurs old r → replace old new r ≠ r ∧ ¬ occurs old (replace old new r)).
Proof.
  intros Hfile Hfirst.
  assert (contains old (l ++ old ++ r) = true) as Hc
    by (apply contains_occurs; by exists l, r).
  assert (replace old new (l ++ old ++ r) = l ++ new ++ replace old new r) as Hout
    by (apply replace_first_at; [apply script_old_nonempty|done]).
  unfold script_update. split; [|split].
  - rewrite (file_text_after _ _ _ _ _ Hfile Hc script_new_encodable script_new_no_cr).
    by rewrite Hout.
  - rewrite (content_after _ _ _ _ _ Hfile Hc script_new_encodable).
    by rewrite Hout.
  - intros Hocc%contains_occurs. split.
    + by apply replace_changes;
        [apply script_old_nonempty|apply script_overlap_free|].
    + apply not_contains_occurs, replace_no_occurrence;
        [apply script_old_nonempty|apply script_overlap_free].
Qed.

Lemma script_replaces_later_occurrences_witness :
  file_text (final (python script_update (one_file Windows path (utf8 ([] ++ old ++ old)))))
            path =
    Some ([] ++ new ++ replace old new old) ∧
  content (final (python script_update (one_file Windows path (utf8 ([] ++ old ++ old)))))
          path =
    Some (stored Windows ([] ++ new ++ replace old new old)) ∧
  (occurs old old → replace old new old ≠ old ∧ ¬ occurs old (replace old new old)).
Proof.
  refine (script_replaces_later_occurrences
            (one_file Windows path (utf8 ([] ++ old ++ old))) [] old _ _).
  - apply one_file_text. vm_compute. reflexivity.
  - split; [by exists old|]. intros l' _. simpl. lia.
Defined.

(** The second run of a patch whose first run succeeded, when [old] is not
    empty and does not overlap [new], and [new] has no [\r]: the file
    holds the replaced text, [old] is not in it, and the run stops at the
    guard. *)
Lemma second_run_mismatch (path : string) (old new : str) (w : world) (text : str) :
  file_text w path = Some text →
  contains old text = true →
  encodable new = true →
  contains CR new = false →
  old ≠ [] →
  overlap_free old new = true →
  ∃ w1,
    python (applyPatch path old new) w = Process 0 Silent w1 ∧
    file_text w1 path = Some (replace old new text) ∧
    contains old (replace old new text) = false ∧
    python (applyPatch path old new) w1 =
      Process 1 (Message "pattern not found")
              (World (os w1) (names w1) (disk w1) (events w1 ++ [ReadText path])).
Proof.
  intros Hfile Hc Henc Hcr Hne Hfree.
  destruct (file_text_inv _ _ _ Hfile) as (i & b & Hi & _ & _ & _).
  pose proof (file_text_after _ _ _ _ _ Hfile Hc Henc Hcr) as Hafter.
  pose proof (replace_no_occurrence old new Hne Hfree text) as Hgone.
  rewrite (python_present path old new w text i) in * by done.
  cbn [final] in Hafter.
  eexists. split; [done|]. split; [done|]. split; [done|].
  by apply (python_absent _ _ _ _ (replace old new text)).
Qed.



(** C5, as stated, does not hold when the replacement is a carriage
    return.  Expected "\n" and replacement "\r" are non-empty, have no
    code point in common and do not overlap; on a file holding "a\nb" the
    run succeeds and stores "a\rb"; reading the file then gives "a\nb"
    again, in which expected is found and the replacement is not. *)
Lemma roundtrip_refuted_by_carriage_return :
  LF ≠ [] ∧ CR ≠ [] ∧ disjoint_chars LF CR ∧ overlap_free LF CR = true ∧
  file_text (one_file Posix "f.txt" (utf8 (py "a" ++ LF ++ py "b"))) "f.txt" =
    Some (py "a" ++ LF ++ py "b") ∧
  exit_status (python (applyPatch "f.txt" LF CR)
                      (one_file Posix "f.txt" (utf8 (py "a" ++ LF ++ py "b")))) = 0%Z ∧
  content (final (python (applyPatch "f.txt" LF CR)
                         (one_file Posix "f.txt" (utf8 (py "a" ++ LF ++ py "b")))))
          "f.txt" = Some (utf8 (py "a" ++ CR ++ py "b")) ∧
  file_text (final (python (applyPatch "f.txt" LF CR)
                           (one_file Posix "f.txt" (utf8 (py "a" ++ LF ++ py "b")))))
            "f.txt" = Some (py "a" ++ LF ++ py "b") ∧
  occurs LF (py "a" ++ LF ++ py "b") ∧
  ¬ occurs CR (py "a" ++ LF ++ py "b").
Proof.
  split; [done|]. split; [done|].
  split; [intros c [<-|[]] [Hc|[]]; discriminate Hc|].
  split; [reflexivity|].
  split; [reflexivity|].
  split; [vm_compute; reflexivity|].
  split; [vm_compute; reflexivity|].
  split; [vm_compute; reflexivity|].
  split; [apply contains_occurs; reflexivity|].
  apply not_contains_occurs. reflexivity.
Qed.

(** C5, amended: when expected is not empty, expected and replacement do
    not overlap (neither contains the other and no non-empty end of one is
    a start of the other, as for non-empty strings with no code point in
    common) and the replacement has no carriage return, then after a
    successful run reading the file gives a content in which the
    replacement is found and expected is not. *)
Theorem roundtrip_disjoint (path : string) (old new : str) (w : world) :
  old ≠ [] →
  overlap_free old new = true →
  contains CR new = false →
  exit_status (python (applyPatch path old new) w) = 0%Z →
  ∃ out,
    file_text (final (python (applyPatch path old new) w)) path = Some out ∧
    occurs new out ∧
    ¬ occurs old out.
Proof.
  intros Hne Hfree Hcr (text & i & Hfile & Hi & Hc & Henc)%python_success_inv.
  exists (replace old new text).
  split; [by apply file_text_after|]. split.
  - by apply contains_occurs, replace_contains_new.
  - by apply not_contains_occurs, replace_no_occurrence.
Qed.

Lemma roundtrip_disjoint_witness :
  ∃ out,
    file_text (final (python (applyPatch "f.txt" (py "ab") (py "x"))
                             (one_file Windows "f.txt" (utf8 (py "aabb")))))
              "f.txt" = Some out ∧
    occurs (py "x") out ∧
    ¬ occurs (py "ab") out.
Proof.
  refine (roundtrip_disjoint "f.txt" (py "ab") (py "x")
            (one_file Windows "f.txt" (utf8 (py "aabb"))) _ _ _ _).
  - discriminate.
  - reflexivity.
  - reflexivity.
  - vm_compute. reflexivity.
Defined.

(** C6: for the content "A\nB\nC\n" with expected "B\n" and replacement
    "B2\nB3\n", the run succeeds and the content becomes
    "A\nB2\nB3\nC\n": this is the text written, and the text read back
    from the file. *)
Theorem scenario_ABC (p : string) (w : world) :
  file_text w p = Some (py "A" ++ LF ++ py "B" ++ LF ++ py "C" ++ LF) →
  (∃ i, names w !! p = Some i ∧
        python (applyPatch p (py "B" ++ LF) (py "B2" ++ LF ++ py "B3" ++ LF)) w =
          Process 0 Silent
            (World (os w) (names w)
               (<[i := stored (os w)
                         (py "A" ++ LF ++ py "B2" ++ LF ++ py "B3" ++ LF ++ py "C" ++ LF)]>
                  (disk w))
               (events w ++
                [ReadText p;
                 WriteText p (py "A" ++ LF ++ py "B2" ++ LF ++ py "B3" ++ LF ++ py "C" ++ LF)]))) ∧
  file_text (final (python (applyPatch p (py "B" ++ LF) (py "B2" ++ LF ++ py "B3" ++ LF)) w)) p =
    Some (py "A" ++ LF ++ py "B2" ++ LF ++ py "B3" ++ LF ++ py "C" ++ LF).
Proof.
  intros Hfile.
  destruct (file_text_inv _ _ _ Hfile) as (i & b & Hi & _ & _ & _).
  split.
  - exists i. split; [done|].
    by rewrite (python_present _ _ _ _ _ i Hfile Hi).
  - by rewrite (file_text_after _ _ _ _ _ Hfile).
Qed.

Lemma scenario_ABC_witness :
  (∃ i, ({[ "f.yaml"%string := 0 ]} : gmap string nat) !! "f.yaml"%string = Some i ∧
        python (applyPatch "f.yaml" (py "B" ++ LF) (py "B2" ++ LF ++ py "B3" ++ LF))
               (one_file Posix "f.yaml" (utf8 (py "A" ++ LF ++ py "B" ++ LF ++ py "C" ++ LF))) =
          Process 0 Silent
            (World Posix {[ "f.yaml"%string := 0 ]}
               (<[i := utf8 (py "A" ++ LF ++ py "B2" ++ LF ++ py "B3" ++ LF ++ py "C" ++ LF)]>
                  {[ 0 := utf8 (py "A" ++ LF ++ py "B" ++ LF ++ py "C" ++ LF) ]})
               [ReadText "f.yaml";
                WriteText "f.yaml"
                  (py "A" ++ LF ++ py "B2" ++ LF ++ py "B3" ++ LF ++ py "C" ++ LF)])) ∧
  file_text
    (final (python (applyPatch "f.yaml" (py "B" ++ LF) (py "B2" ++ LF ++ py "B3" ++ LF))
                   (one_file Posix "f.yaml"
                      (utf8 (py "A" ++ LF ++ py "B" ++ LF ++ py "C" ++ LF)))))
    "f.yaml" =
    Some (py "A" ++ LF ++ py "B2" ++ LF ++ py "B3" ++ LF ++ py "C" ++ LF).
Proof.
  refine (scenario_ABC "f.yaml"
            (one_file Posix "f.yaml" (utf8 (py "A" ++ LF ++ py "B" ++ LF ++ py "C" ++ LF))) _).
  apply one_file_text. reflexivity.
Defined.

(** C7: on a mismatch the process ends with a non-zero exit status (1) and
    the message 'pattern not found' on stderr; nothing is written, the
    file system is as before. *)
Theorem mismatch_exit_status (path : string) (old new : str) (w : world) (text : str) :
  file_text w path = Some text →
  ¬ occurs old text →
  exit_status (python (applyPatch path old new) w) = 1%Z ∧
  exit_status (python (applyPatch path old new) w) ≠ 0%Z ∧
  stderr (python (applyPatch path old new) w) = Message "pattern not found" ∧
  names (final (python (applyPatch path old new) w)) = names w ∧
  disk (final (python (applyPatch path old new) w)) = disk w ∧
  writes (events (final (python (applyPatch path old new) w))) = writes (events w).
Proof.
  intros Hfile Hno%not_contains_occurs.
  rewrite (python_absent _ _ _ _ _ Hfile) by done.
  cbn [exit_status stderr final names disk events].
  repeat split; [done|]. rewrite writes_app. simpl. apply app_nil_r.
Qed.

Lemma mismatch_exit_status_witness :
  exit_status (python script_update (one_file Windows path (utf8 (py "sections:" ++ CRLF)))) = 1%Z ∧
  exit_status (python script_update (one_file Windows path (utf8 (py "sections:" ++ CRLF)))) ≠ 0%Z ∧
  stderr (python script_update (one_file Windows path (utf8 (py "sections:" ++ CRLF)))) =
    Message "pattern not found" ∧
  names (final (python script_update (one_file Windows path (utf8 (py "sections:" ++ CRLF))))) =
    {[ path := 0 ]} ∧
  disk (final (python script_update (one_file Windows path (utf8 (py "sections:" ++ CRLF))))) =
    {[ 0 := utf8 (py "sections:" ++ CRLF) ]} ∧
  writes (events (final (python script_update
                           (one_file Windows path (utf8 (py "sections:" ++ CRLF)))))) = [].
Proof.
  refine (mismatch_exit_status path old new
            (one_file Windows path (utf8 (py "sections:" ++ CRLF)))
            (py "sections:" ++ LF) _ _).
  - apply one_file_text. reflexivity.
  - apply not_contains_occurs. vm_compute. reflexivity.
Defined.

(** C8: the script does not check that expected is non-empty.  The empty
    string is found in every content, so the mismatch error is never
    raised for it, and the run calls the write with the replacement placed
    at every boundary of the content: before each code point and at the
    end.  When the replacement can be encoded, the write succeeds and the
    file holds that text. *)
Theorem empty_expected_is_accepted (path : string) (new : str) (w : world) (text : str) :
  file_text w path = Some text →
  contains [] text = true ∧
  (∀ arg, fst (applyPatch path [] new w) ≠ Raises (SystemExit arg)) ∧
  events (snd (applyPatch path [] new w)) =
    events w ++ [ReadText path; WriteText path (at_every_boundary new text)] ∧
  (encodable new = true →
   ∃ i, names w !! path = Some i ∧
        python (applyPatch path [] new) w =
          Process 0 Silent
            (World (os w) (names w)
                   (<[i := stored (os w) (at_every_boundary new text)]> (disk w))
                   (events w ++ [ReadText path; WriteText path (at_every_boundary new text)]))).
Proof.
  intros Hfile. pose proof (contains_empty text) as Hc.
  destruct (file_text_inv _ _ _ Hfile) as (i & b & Hi & _ & _ & _).
  pose proof (applyPatch_write path [] new w text i Hfile Hi Hc) as Hrun.
  rewrite replace_empty in Hrun.
  split; [done|]. split; [|split].
  - intros arg. rewrite Hrun. by destruct (encodable new).
  - rewrite Hrun. by destruct (encodable new).
  - intros Henc. exists i. split; [done|].
    rewrite (python_present _ _ _ _ _ i Hfile Hi Hc Henc). by rewrite replace_empty.
Qed.

Lemma empty_expected_is_accepted_witness :
  contains [] (py "abc") = true ∧
  (∀ arg, fst (applyPatch "f.txt" [] (py "-") (one_file Posix "f.txt" (utf8 (py "abc")))) ≠
          Raises (SystemExit arg)) ∧
  events (snd (applyPatch "f.txt" [] (py "-") (one_file Posix "f.txt" (utf8 (py "abc"))))) =
    [ReadText "f.txt"; WriteText "f.txt" (py "-a-b-c-")] ∧
  (encodable (py "-") = true →
   ∃ i, ({[ "f.txt"%string := 0 ]} : gmap string nat) !! "f.txt"%string = Some i ∧
        python (applyPatch "f.txt" [] (py "-")) (one_file Posix "f.txt" (utf8 (py "abc"))) =
          Process 0 Silent
            (World Posix {[ "f.txt"%string := 0 ]}
                   (<[i := utf8 (py "-a-b-c-")]> {[ 0 := utf8 (py "abc") ]})
                   [ReadText "f.txt"; WriteText "f.txt" (py "-a-b-c-")])).
Proof.
  refine (empty_expected_is_accepted "f.txt" (py "-")
            (one_file Posix "f.txt" (utf8 (py "abc"))) (py "abc") _).
  apply one_file_text. reflexivity.
Defined.

(** C9: when the replacement equals expected and expected occurs in the
    content, the run succeeds, the text it writes is the text it read, and
    reading the file afterwards gives that same text.  When the file was
    stored with the platform's line separator, its bytes are unchanged
    too. *)
Theorem identity_patch (path : string) (old : str) (w : world) (text : str) :
  file_text w path = Some text →
  occurs old text →
  (∃ i, names w !! path = Some i ∧
        python (applyPatch path old old) w =
          Process 0 Silent
            (World (os w) (names w) (<[i := stored (os w) text]> (disk w))
                   (events w ++ [ReadText path; WriteText path text]))) ∧
  file_text (final (python (applyPatch path old old) w)) path = Some text ∧
  (content w path = Some (stored (os w) text) →
   disk (final (python (applyPatch path old old) w)) = disk w).
Proof.
  intros Hfile Hocc%contains_occurs.
  destruct (file_text_inv _ _ _ Hfile) as (i & b & Hi & Hb & Hcontent & _).
  pose proof (file_text_encodable _ _ _ Hfile) as Henc.
  assert (python (applyPatch path old old) w =
          Process 0 Silent
            (World (os w) (names w) (<[i := stored (os w) text]> (disk w))
                   (events w ++ [ReadText path; WriteText path text]))) as Hrun.
  { pose proof (applyPatch_write path old old w text i Hfile Hi Hocc) as Hw.
    rewrite replace_same in Hw. unfold python. rewrite Hw.
    assert (encodable old = true) as ->; [|done].
    rewrite <- (encodable_output (os w) old old text Hocc Henc), replace_same.
    by apply encodable_write_newlines. }
  split; [by exists i|]. rewrite Hrun. cbn [final disk]. split.
  - apply file_text_written; [done|done|]. by eapply file_text_no_cr.
  - intros Hsame. rewrite Hcontent in Hsame. injection Hsame as ->.
    by apply insert_id.
Qed.

Lemma identity_patch_witness :
  (∃ i, ({[ path := 0 ]} : gmap string nat) !! path = Some i ∧
        python (applyPatch path old old) (one_file Windows path (stored Windows (old ++ old))) =
          Process 0 Silent
            (World Windows {[ path := 0 ]}
                   (<[i := stored Windows (old ++ old)]> {[ 0 := stored Windows (old ++ old) ]})
                   [ReadText path; WriteText path (old ++ old)])) ∧
  file_text (final (python (applyPatch path old old)
                           (one_file Windows path (stored Windows (old ++ old))))) path =
    Some (old ++ old) ∧
  (content (one_file Windows path (stored Windows (old ++ old))) path =
     Some (stored Windows (old ++ old)) →
   disk (final (python (applyPatch path old old)
                       (one_file Windows path (stored Windows (old ++ old))))) =
     {[ 0 := stored Windows (old ++ old) ]}).
Proof.
  refine (identity_patch path old (one_file Windows path (stored Windows (old ++ old)))
            (old ++ old) _ _).
  - apply one_file_text. vm_compute. reflexivity.
  - by exists [], old.
Defined.

(** * Further properties of the script *)

Lemma contains_trans (a b c : str) :
  contains a b = true → contains b c = true → contains a c = true.
Proof.
  rewrite !contains_occurs. intros [l [r ->]] [l' [r' ->]].
  exists (l' ++ l), (r ++ r'). by rewrite <- !app_assoc.
Qed.

(** The bytes of the file that a path names decide the text read from
    it. *)
Lemma file_text_content (w w' : world) (p : string) :
  content w' p = content w p → file_text w' p = file_text w p.
Proof. unfold file_text. by intros ->. Qed.

(** X1: when the path names no file, [read_text] raises
    [FileNotFoundError]: the process ends with status 1 and a traceback,
    not with the mismatch message; nothing is read or written and no file
    is created. *)
Theorem missing_file_stops (path : string) (old new : str) (w : world) :
  content w path = None →
  python (applyPatch path old new) w =
    Process 1 (Traceback (FileNotFoundError path)) w.
Proof. apply python_missing. Qed.

Lemma missing_file_stops_witness :
  python script_update (World Windows ∅ ∅ []) =
    Process 1 (Traceback (FileNotFoundError path)) (World Windows ∅ ∅ []).
Proof.
  refine (missing_file_stops path old new (World Windows ∅ ∅ []) _).
  reflexivity.
Defined.

(** X2: exit status 0 is a guarantee: it is reached only when the file was
    read as a text that contains [old], and then nothing is printed on
    stderr and the file holds the encoding of the replaced text. *)
Theorem exit_status_zero_only_if (path : string) (old new : str) (w : world) :
  exit_status (python (applyPatch path old new) w) = 0%Z →
  ∃ text, file_text w path = Some text ∧
          occurs old text ∧
          stderr (python (applyPatch path old new) w) = Silent ∧
          content (final (python (applyPatch path old new) w)) path =
            Some (stored (os w) (replace old new text)).
Proof.
  intros (text & i & Hfile & Hi & Hc & Henc)%python_success_inv.
  exists text. split; [done|]. split; [by apply contains_occurs|].
  split; [by rewrite (python_present _ _ _ _ text i)|].
  by apply content_after.
Qed.

Lemma exit_status_zero_only_if_witness :
  ∃ text,
    file_text (one_file Posix "f.txt" (utf8 (py "banana"))) "f.txt" = Some text ∧
    occurs (py "an") text ∧
    stderr (python (applyPatch "f.txt" (py "an") (py "AN"))
                   (one_file Posix "f.txt" (utf8 (py "banana")))) = Silent ∧
    content (final (python (applyPatch "f.txt" (py "an") (py "AN"))
                           (one_file Posix "f.txt" (utf8 (py "banana"))))) "f.txt" =
      Some (stored Posix (replace (py "an") (py "AN") text)).
Proof.
  refine (exit_status_zero_only_if "f.txt" (py "an") (py "AN")
            (one_file Posix "f.txt" (utf8 (py "banana"))) _).
  vm_compute. reflexivity.
Defined.

(** X3: a run changes at most the one file that the path names.  The
    platform and the directory entries are as before, no file is created
    or removed, every other file keeps its bytes, and so every path that
    names another file reads as before; a second name of the same file
    shows what was written. *)
Theorem other_files_untouched (path : string) (old new : str) (w : world) :
  os (final (python (applyPatch path old new) w)) = os w ∧
  names (final (python (applyPatch path old new) w)) = names w ∧
  dom (disk (final (python (applyPatch path old new) w))) = dom (disk w) ∧
  (∀ j, names w !! path ≠ Some j →
        disk (final (python (applyPatch path old new) w)) !! j = disk w !! j) ∧
  (∀ p, names w !! p ≠ names w !! path →
        content (final (python (applyPatch path old new) w)) p = content w p) ∧
  (∀ p, names w !! p = names w !! path →
        content (final (python (applyPatch path old new) w)) p =
        content (final (python (applyPatch path old new) w)) path).
Proof.
  assert (∀ (i : nat) (b : bytes) (log : list event),
            names w !! path = Some i → is_Some (disk w !! i) →
            os (World (os w) (names w) (<[i := b]> (disk w)) log) = os w ∧
            names (World (os w) (names w) (<[i := b]> (disk w)) log) = names w ∧
            dom (disk (World (os w) (names w) (<[i := b]> (disk w)) log)) = dom (disk w) ∧
            (∀ j, names w !! path ≠ Some j →
                  disk (World (os w) (names w) (<[i := b]> (disk w)) log) !! j = disk w !! j) ∧
            (∀ p, names w !! p ≠ names w !! path →
                  content (World (os w) (names w) (<[i := b]> (disk w)) log) p = content w p) ∧
            (∀ p, names w !! p = names w !! path →
                  content (World (os w) (names w) (<[i := b]> (disk w)) log) p =
                  content (World (os w) (names w) (<[i := b]> (disk w)) log) path)) as Hwrite.
  { intros i b log Hi Hsome. cbn [os names disk].
    split; [done|]. split; [done|]. split; [by apply dom_insert_lookup_L|].
    split; [|split].
    - intros j Hj. apply lookup_insert_ne. congruence.
    - intros p Hp. unfold content. cbn [names disk].
      destruct (names w !! p) as [j|] eqn:Hj; [|done]. simpl.
      apply lookup_insert_ne. congruence.
    - intros p Hp. unfold content. cbn [names disk]. by rewrite Hp. }
  assert (∀ log,
            os (World (os w) (names w) (disk w) log) = os w ∧
            names (World (os w) (names w) (disk w) log) = names w ∧
            dom (disk (World (os w) (names w) (disk w) log)) = dom (disk w) ∧
            (∀ j, names w !! path ≠ Some j →
                  disk (World (os w) (names w) (disk w) log) !! j = disk w !! j) ∧
            (∀ p, names w !! p ≠ names w !! path →
                  content (World (os w) (names w) (disk w) log) p = content w p) ∧
            (∀ p, names w !! p = names w !! path →
                  content (World (os w) (names w) (disk w) log) p =
                  content (World (os w) (names w) (disk w) log) path)) as Hsame.
  { intros log. repeat split; try done.
    intros p Hp. unfold content. cbn [names disk]. by rewrite Hp. }
  destruct (run_cases path w) as [Hnone|[(b & Hb & Hdec)|(text & i & Hfile & Hi)]].
  - rewrite (python_missing _ _ _ _ Hnone). cbn [final].
    repeat split; try done. intros p Hp. unfold content. by rewrite Hp.
  - rewrite (python_undecodable _ _ _ _ b) by done. apply Hsame.
  - destruct (file_text_inv _ _ _ Hfile) as (i' & b & Hi' & Hb & _ & _).
    assert (i' = i) as -> by congruence.
    destruct (contains old text) eqn:Hc.
    + destruct (encodable new) eqn:Henc.
      * rewrite (python_present _ _ _ _ text i) by done. by apply Hwrite.
      * rewrite (python_unencodable _ _ _ _ text i) by done. by apply Hwrite.
    + rewrite (python_absent _ _ _ _ text) by done. apply Hsame.
Qed.

(** X4: a content shorter than [old] cannot contain it (an empty file, for
    a non-empty [old]): the run stops with the mismatch message and the
    file system is unchanged. *)
Theorem short_content_mismatch (path : string) (old new : str) (w : world) (text : str) :
  file_text w path = Some text →
  length text < length old →
  python (applyPatch path old new) w =
    Process 1 (Message "pattern not found")
            (World (os w) (names w) (disk w) (events w ++ [ReadText path])).
Proof.
  intros Hfile Hlen. apply (python_absent _ _ _ _ _ Hfile).
  destruct (contains old text) eqn:Hc; [|done].
  apply contains_length in Hc. lia.
Qed.

Lemma short_content_mismatch_witness :
  python script_update (one_file Windows path []) =
    Process 1 (Message "pattern not found")
            (World Windows {[ path := 0 ]} {[ 0 := [] ]} [ReadText path]).
Proof.
  refine (short_content_mismatch path old new (one_file Windows path []) [] _ _).
  - apply one_file_text. reflexivity.
  - vm_compute. lia.
Defined.
(** The length of the output, counted in exchanges of [old] for [new]. *)
Lemma replace_exchanges (old new text : str) :
  ∃ k, k ≤ S (length text) ∧
       (contains old text = false → k = 0) ∧
       (contains old text = true → 1 ≤ k) ∧
       length (replace old new text) + k * length old =
         length text + k * length new.
Proof.
  destruct (decide (old = [])) as [->|Hne].
  - exists (S (length text)). rewrite contains_empty.
    cbn [replace]. rewrite length_app, interleave_length.
    split; [lia|]. split; [done|]. split; [lia|]. simpl. lia.
  - remember (length text) as n eqn:Hn. revert text Hn.
    induction n as [n IH] using lt_wf_ind. intros [|c t] ->.
    { exists 0. rewrite replace_nil by done.
      split; [lia|]. split; [done|]. split; [|done].
      destruct old; [done|]. discriminate. }
    destruct (startswith old (c :: t)) eqn:Hsw.
    + pose proof (startswith_contains _ _ Hsw) as Hc.
      pose proof (contains_length _ _ Hc) as Hlen.
      assert (1 ≤ length old) as Hpos by (destruct old; [done|simpl; lia]).
      destruct (IH (length (drop (length old) (c :: t)))
                   ltac:(rewrite length_drop; destruct old; [done|simpl; lia])
                   _ eq_refl) as (k & Hk & _ & _ & Heq).
      exists (S k). rewrite replace_match, length_app by done.
      rewrite length_drop in Hk, Heq. rewrite Hc.
      split; [lia|]. split; [done|]. split; [lia|]. lia.
    + destruct (IH (length t) ltac:(simpl; lia) _ eq_refl) as (k & Hk & H0 & H1 & Heq).
      exists k. rewrite replace_skip by done.
      cbn [contains]. rewrite Hsw. cbn [orb length].
      split; [lia|]. split; [done|]. split; [done|]. lia.
Qed.

(** X5: [text.replace(old, new)] changes the length by a whole number of
    exchanges of [old] for [new]: for some [k], at most one more than the
    length of the text, the output without [k] copies of [new] is as long
    as the text without [k] copies of [old]; [k] is 0 when [old] is not in
    the text and at least 1 when it is. *)
Theorem replace_length (old new text : str) :
  ∃ k, k ≤ S (length text) ∧
       (contains old text = false → k = 0) ∧
       (contains old text = true → 1 ≤ k) ∧
       length (replace old new text) + k * length old =
         length text + k * length new.
Proof. apply replace_exchanges. Qed.


(** X6: when [old] is non-empty and does not overlap [new], and [new] has
    no carriage return, running the patch again changes nothing: whatever
    the first run did (missing file, undecodable file, mismatch, failed or
    successful write), the second run ends with status 1 and the file
    system is as the first run left it. *)
Theorem rerun_changes_nothing (path : string) (old new : str) (w : world) :
  old ≠ [] →
  overlap_free old new = true →
  contains CR new = false →
  exit_status (python (applyPatch path old new)
                      (final (python (applyPatch path old new) w))) = 1%Z ∧
  names (final (python (applyPatch path old new)
                       (final (python (applyPatch path old new) w)))) =
    names (final (python (applyPatch path old new) w)) ∧
  disk (final (python (applyPatch path old new)
                      (final (python (applyPatch path old new) w)))) =
    disk (final (python (applyPatch path old new) w)).
Proof.
  intros Hne Hfree Hcr.
  destruct (run_cases path w) as [Hnone|[(b & Hb & Hdec)|(text & i & Hfile & Hi)]].
  - rewrite (python_missing path old new w Hnone). cbn [final].
    by rewrite (python_missing path old new w Hnone).
  - rewrite (python_undecodable path old new w b Hb Hdec). cbn [final].
    set (w1 := World _ _ _ _).
    by rewrite (python_undecodable path old new w1 b Hb Hdec).
  - destruct (contains old text) eqn:Hc.
    + destruct (encodable new) eqn:Henc.
      * destruct (second_run_mismatch path old new w text Hfile Hc Henc Hcr Hne Hfree)
          as (w1 & -> & _ & _ & Hsecond).
        cbn [final]. by rewrite Hsecond.
      * rewrite (python_unencodable path old new w text i Hfile Hi Hc Henc).
        cbn [final].
        rewrite (python_absent path old new _ []); [done| |by destruct old].
        unfold file_text, content. cbn [names disk]. rewrite Hi. simpl.
        by rewrite lookup_insert_eq.
    + rewrite (python_absent path old new w text Hfile Hc). cbn [final].
      set (w1 := World _ _ _ _).
      by rewrite (python_absent path old new w1 text Hfile Hc).
Qed.

Lemma rerun_changes_nothing_witness :
  exit_status (python script_update
                 (final (python script_update (one_file Windows path (stored Windows old))))) = 1%Z ∧
  names (final (python script_update
                  (final (python script_update (one_file Windows path (stored Windows old)))))) =
    names (final (python script_update (one_file Windows path (stored Windows old)))) ∧
  disk (final (python script_update
                 (final (python script_update (one_file Windows path (stored Windows old)))))) =
    disk (final (python script_update (one_file Windows path (stored Windows old)))).
Proof.
  refine (rerun_changes_nothing path old new
            (one_file Windows path (stored Windows old)) _ _ _).
  - discriminate.
  - vm_compute. reflexivity.
  - vm_compute. reflexivity.
Defined.

Lemma replace_changes_text (old new text : str) :
  contains old text = true → old ≠ new → replace old new text ≠ text.
Proof.
  intros Hocc Hdiff Hsame.
  destruct (replace_exchanges old new text) as (k & _ & _ & Hk & Hlen).
  specialize (Hk Hocc). rewrite Hsame in Hlen.
  assert (length old = length new) as Hlens by nia.
  destruct (decide (old = [])) as [->|Hne].
  { destruct new; [done|discriminate Hlens]. }
  destruct (contains_first_at _ _ Hocc) as (l & r & -> & Hfirst).
  rewrite replace_first_at in Hsame by done.
  apply app_inv_head in Hsame.
  apply app_inj_1 in Hsame as [Heq _]; [congruence|done].
Qed.

(** X7: a successful run with a replacement that differs from [old] and
    has no carriage return always changes the file: the text read back
    differs from the text read before, and so do the bytes. *)
Theorem successful_run_changes_content (path : string) (old new : str) (w : world) :
  exit_status (python (applyPatch path old new) w) = 0%Z →
  old ≠ new →
  contains CR new = false →
  file_text (final (python (applyPatch path old new) w)) path ≠ file_text w path ∧
  content (final (python (applyPatch path old new) w)) path ≠ content w path.
Proof.
  intros (text & i & Hfile & Hi & Hc & Henc)%python_success_inv Hdiff Hcr.
  assert (file_text (final (python (applyPatch path old new) w)) path ≠
          file_text w path) as Htext.
  { rewrite (file_text_after _ _ _ _ _ Hfile Hc Henc Hcr), Hfile.
    intros [= Hsame]. by apply (replace_changes_text old new text). }
  split; [done|]. intros Hsame. by apply Htext, file_text_content.
Qed.

Lemma successful_run_changes_content_witness :
  file_text (final (python script_update (one_file Windows path (stored Windows old)))) path ≠
    file_text (one_file Windows path (stored Windows old)) path ∧
  content (final (python script_update (one_file Windows path (stored Windows old)))) path ≠
    content (one_file Windows path (stored Windows old)) path.
Proof.
  refine (successful_run_changes_content path old new
            (one_file Windows path (stored Windows old)) _ _ _).
  - vm_compute. reflexivity.
  - intros Heq. apply (f_equal length) in Heq. vm_compute in Heq. discriminate Heq.
  - vm_compute. reflexivity.
Defined.

(** X8: when the guard passes, the text given to the write contains the
    replacement, whatever the two strings are; when the run succeeds, the
    file holds the encoding of that text. *)
Theorem replacement_found_after_success (path : string) (old new : str) (w : world) (text : str) :
  file_text w path = Some text →
  occurs old text →
  ∃ out,
    events (final (python (applyPatch path old new) w)) =
      events w ++ [ReadText path; WriteText path out] ∧
    occurs new out ∧
    (exit_status (python (applyPatch path old new) w) = 0%Z →
     content (final (python (applyPatch path old new) w)) path =
       Some (stored (os w) out)).
Proof.
  intros Hfile Hocc%contains_occurs.
  destruct (file_text_inv _ _ _ Hfile) as (i & b & Hi & _ & _ & _).
  exists (replace old new text). split; [|split].
  - destruct (encodable new) eqn:Henc.
    + by rewrite (python_present _ _ _ _ text i).
    + by rewrite (python_unencodable _ _ _ _ text i).
  - by apply contains_occurs, replace_contains_new.
  - intros (text' & i' & Hfile' & _ & _ & Henc)%python_success_inv.
    by apply content_after.
Qed.

Lemma replacement_found_after_success_witness :
  ∃ out,
    events (final (python (applyPatch "f.txt" (py "a") (py "aa"))
                          (one_file Posix "f.txt" (utf8 (py "banana"))))) =
      [] ++ [ReadText "f.txt"; WriteText "f.txt" out] ∧
    occurs (py "aa") out ∧
    (exit_status (python (applyPatch "f.txt" (py "a") (py "aa"))
                         (one_file Posix "f.txt" (utf8 (py "banana")))) = 0%Z →
     content (final (python (applyPatch "f.txt" (py "a") (py "aa"))
                            (one_file Posix "f.txt" (utf8 (py "banana"))))) "f.txt" =
       Some (stored Posix out)).
Proof.
  refine (replacement_found_after_success "f.txt" (py "a") (py "aa")
            (one_file Posix "f.txt" (utf8 (py "banana"))) (py "banana") _ _).
  - apply one_file_text. reflexivity.
  - apply contains_occurs. reflexivity.
Defined.

(** X9: the file operations of a run are, in this order, at most one read
    and at most one write, both of the script's path: nothing, the read
    alone, or the read followed by the write.  The script never writes a
    file it has not read and never writes twice. *)
Theorem run_log_shape (path : string) (old new : str) (w : world) :
  ∃ log, events (final (python (applyPatch path old new) w)) = events w ++ log ∧
         (log = [] ∨ log = [ReadText path] ∨
          ∃ data, log = [ReadText path; WriteText path data]).
Proof.
  destruct (run_cases path w) as [Hnone|[(b & Hb & Hdec)|(text & i & Hfile & Hi)]].
  - rewrite (python_missing _ _ _ _ Hnone). exists []. split; [|by left].
    by rewrite app_nil_r.
  - rewrite (python_undecodable _ _ _ _ b) by done. eexists. split; [done|].
    right. by left.
  - destruct (contains old text) eqn:Hc.
    + exists [ReadText path; WriteText path (replace old new text)].
      split; [|right; right; by eexists].
      destruct (encodable new) eqn:Henc.
      * by rewrite (python_present _ _ _ _ text i).
      * by rewrite (python_unencodable _ _ _ _ text i).
    + rewrite (python_absent _ _ _ _ text) by done. eexists. split; [done|].
      right. by left.
Qed.

(** X10: a file whose bytes are not UTF-8 stops the run at the read with
    [UnicodeDecodeError]: status 1 and a traceback, nothing is written and
    the file system is unchanged. *)
Theorem undecodable_file_stops (path : string) (old new : str) (w : world) (b : bytes) :
  content w path = Some b →
  utf8_decode b = None →
  python (applyPatch path old new) w =
    Process 1 (Traceback UnicodeDecodeError)
            (World (os w) (names w) (disk w) (events w ++ [ReadText path])).
Proof. apply python_undecodable. Qed.

Lemma undecodable_file_stops_witness :
  python script_update (one_file Windows path [255%N; 254%N]) =
    Process 1 (Traceback UnicodeDecodeError)
            (World Windows {[ path := 0 ]} {[ 0 := [255%N; 254%N] ]} [ReadText path]).
Proof.
  refine (undecodable_file_stops path old new
            (one_file Windows path [255%N; 254%N]) [255%N; 254%N] _ _).
  - reflexivity.
  - reflexivity.
Defined.

(** X11: a replacement that cannot be encoded (a lone surrogate) loses the
    content of the file.  When the guard passes, the write empties the
    file and then raises [UnicodeEncodeError]: the process ends with
    status 1 and the file is left empty. *)
Theorem unencodable_replacement_empties_file (path : string) (old new : str) (w : world) (text : str) :
  file_text w path = Some text →
  occurs old text →
  encodable new = false →
  exit_status (python (applyPatch path old new) w) = 1%Z ∧
  stderr (python (applyPatch path old new) w) = Traceback UnicodeEncodeError ∧
  content (final (python (applyPatch path old new) w)) path = Some [] ∧
  file_text (final (python (applyPatch path old new) w)) path = Some [].
Proof.
  intros Hfile Hocc%contains_occurs Henc.
  destruct (file_text_inv _ _ _ Hfile) as (i & b & Hi & _ & _ & _).
  rewrite (python_unencodable _ _ _ _ text i) by done.
  cbn [exit_status stderr final]. split; [done|]. split; [done|].
  unfold file_text, content. cbn [names disk]. rewrite Hi. simpl.
  by rewrite lookup_insert_eq.
Qed.

Lemma unencodable_replacement_empties_file_witness :
  exit_status (python (applyPatch "f.txt" (py "a") [0xD800%N])
                      (one_file Posix "f.txt" (utf8 (py "banana")))) = 1%Z ∧
  stderr (python (applyPatch "f.txt" (py "a") [0xD800%N])
                 (one_file Posix "f.txt" (utf8 (py "banana")))) =
    Traceback UnicodeEncodeError ∧
  content (final (python (applyPatch "f.txt" (py "a") [0xD800%N])
                         (one_file Posix "f.txt" (utf8 (py "banana"))))) "f.txt" = Some [] ∧
  file_text (final (python (applyPatch "f.txt" (py "a") [0xD800%N])
                           (one_file Posix "f.txt" (utf8 (py "banana"))))) "f.txt" = Some [].
Proof.
  refine (unencodable_replacement_empties_file "f.txt" (py "a") [0xD800%N]
            (one_file Posix "f.txt" (utf8 (py "banana"))) (py "banana") _ _ _).
  - apply one_file_text. reflexivity.
  - apply contains_occurs. reflexivity.
  - reflexivity.
Defined.

(** X12: an expected string that contains a carriage return never matches:
    the text read has every line ending as [\n], so the run always stops
    with the mismatch message, also on a file that holds these very
    bytes. *)
Theorem expected_with_cr_never_matches (path : string) (old new : str) (w : world) (text : str) :
  file_text w path = Some text →
  contains CR old = true →
  python (applyPatch path old new) w =
    Process 1 (Message "pattern not found")
            (World (os w) (names w) (disk w) (events w ++ [ReadText path])).
Proof.
  intros Hfile Hcr. apply (python_absent _ _ _ _ _ Hfile).
  destruct (contains old text) eqn:Hc; [|done].
  pose proof (contains_trans _ _ _ Hcr Hc) as Hbad.
  by rewrite (file_text_no_cr _ _ _ Hfile) in Hbad.
Qed.

Lemma expected_with_cr_never_matches_witness :
  python (applyPatch "f.txt" (py "a" ++ CRLF) (py "b"))
         (one_file Windows "f.txt" (utf8 (py "a" ++ CRLF))) =
    Process 1 (Message "pattern not found")
            (World Windows {[ "f.txt"%string := 0 ]} {[ 0 := utf8 (py "a" ++ CRLF) ]}
                   [ReadText "f.txt"]).
Proof.
  refine (expected_with_cr_never_matches "f.txt" (py "a" ++ CRLF) (py "b")
            (one_file Windows "f.txt" (utf8 (py "a" ++ CRLF))) (py "a" ++ LF) _ _).
  - apply one_file_text. reflexivity.
  - reflexivity.
Defined.

(** X13: after a successful run with a replacement without carriage
    return, reading the file gives exactly [text.replace(old, new)] of the
    text read before, on both platforms, whatever line endings the file
    had. *)
Theorem read_after_successful_run (path : string) (old new : str) (w : world) :
  exit_status (python (applyPatch path old new) w) = 0%Z →
  contains CR new = false →
  ∃ text, file_text w path = Some text ∧
          file_text (final (python (applyPatch path old new) w)) path =
            Some (replace old new text).
Proof.
  intros (text & i & Hfile & Hi & Hc & Henc)%python_success_inv Hcr.
  exists text. split; [done|]. by apply file_text_after.
Qed.

Lemma read_after_successful_run_witness :
  ∃ text,
    file_text (one_file Posix "f.yaml" (utf8 (py "A" ++ CRLF ++ py "B" ++ CR))) "f.yaml" =
      Some text ∧
    file_text (final (python (applyPatch "f.yaml" (py "B") (py "b"))
                             (one_file Posix "f.yaml" (utf8 (py "A" ++ CRLF ++ py "B" ++ CR)))))
              "f.yaml" =
      Some (replace (py "B") (py "b") text).
Proof.
  refine (read_after_successful_run "f.yaml" (py "B") (py "b")
            (one_file Posix "f.yaml" (utf8 (py "A" ++ CRLF ++ py "B" ++ CR))) _ _).
  - vm_compute. reflexivity.
  - reflexivity.
Defined.

(** X14: the decoder accepts exactly the encodings: bytes decode to a text
    if and only if the text can be encoded and these bytes are its
    encoding.  In particular what [write_text] stores can always be
    decoded again. *)
Theorem utf8_decode_iff (b : bytes) (s : str) :
  utf8_decode b = Some s ↔ encodable s = true ∧ utf8 s = b.
Proof.
  split.
  - intros [? ?]%utf8_encode_decode. done.
  - intros [Henc <-]. by apply utf8_decode_encode.
Qed.
